(** * The satellite core supervisor (satellite/core.go)

    A shallow embedding of [Core], [New], [Core.Run] and [Core.Close].

    The subsystems themselves (contact, overlay, audit, ...) live in other
    packages.  What the supervisor does with them is all that is modelled
    here: which constructor is called with which values, which [Close]
    methods are called in which order, which [Run] methods are started, and
    how the returned errors are combined. *)

From Stdlib Require Import List String Bool Arith Lia Permutation.
Import ListNotations.
Local Open Scope string_scope.
Local Open Scope list_scope.
Set Warnings "-register-all".

(** ** Errors: the [error] interface, github.com/zeebo/errs and errs2 *)

Module Errs.

(** A Go [error] value.  The nil error is [None : option error].
    [Combined] is the value [errs.Group.Err] returns for two or more
    errors. *)
Inductive error : Type :=
| ContextCanceled                 (* context.Canceled *)
| Failure (msg : string)          (* any other leaf error *)
| Combined (errors : list error). (* errs.combinedError *)

(** [errs.Group] is a slice of errors. *)
Definition Group : Type := list error.

(** [func (group *Group) Add(errs ...error)] for one argument: a nil
    error is dropped, any other is appended. *)
Definition Add (group : Group) (err : option error) : Group :=
  match err with
  | None => group
  | Some e => group ++ [e]
  end.

(** [func (group Group) Err() error]: nil for no error, the error itself
    when there is exactly one, a combined error otherwise. *)
Definition Err (group : Group) : option error :=
  match group with
  | [] => None
  | [e] => Some e
  | _ => Some (Combined group)
  end.

(** [func Combine(errs ...error) error]: add all, then [Err]. *)
Definition Combine (errors : list (option error)) : option error :=
  Err (fold_left Add errors []).

(** [errs2.IsCanceled]: the error, or the cause it unwraps to, is
    [context.Canceled].  A combined error unwraps to its first member. *)
Fixpoint IsCanceled (e : error) : bool :=
  match e with
  | ContextCanceled => true
  | Failure _ => false
  | Combined [] => false
  | Combined (first :: _) => IsCanceled first
  end.

(** [errs2.IgnoreCanceled]: nil when the error is a cancellation, the
    error itself otherwise. *)
Definition IgnoreCanceled (err : option error) : option error :=
  match err with
  | None => None
  | Some e => if IsCanceled e then None else Some e
  end.

End Errs.
Import Errs.

(** ** The [Core] struct *)

(** The fields of [Core], nested structs flattened: [Overlay_Service] is
    [peer.Overlay.Service]. *)
Inductive Field : Type :=
| Log | Identity | DB
| Dialer
| Version
| Contact_Service
| Overlay_DB | Overlay_Service
| Metainfo_Database | Metainfo_Service | Metainfo_Loop
| Orders_Service
| Repair_Checker | Repair_Repairer
| Audit_Queue | Audit_Worker | Audit_Chore | Audit_Verifier | Audit_Reporter
| GarbageCollection_Service
| DBCleanup_Chore
| Accounting_Tally | Accounting_Rollup | Accounting_ProjectUsage
| LiveAccounting_Cache
| Payments_Accounts | Payments_Chore
| GracefulExit_Chore
| Metrics_Chore
| DowntimeTracking_DetectionChore | DowntimeTracking_Service.

Scheme Equality for Field.

(** Where a constructor argument comes from: a read of a [peer] field, or
    a local variable or parameter of [New]. *)
Inductive Source : Type :=
| PeerField (f : Field)
| LocalVar (name : string).

(** A non-nil reference.  [Given] objects are handed to [New] by its
    caller; [Built] objects are the result of a constructor call and
    remember the references the constructor was called with (a nil
    argument is [None]).  Arguments that are plain configuration values
    are not recorded. *)
Inductive Handle : Type :=
| Given (name : string)
| Built (constructor : string) (inputs : list (Source * option Handle)).

(** A [Core] value: every field holds nil or a reference. *)
Definition Core : Type := Field -> option Handle.

(** The zero value of the struct. *)
Definition zero_Core : Core := fun _ => None.

(** [peer.f = v] *)
Definition set (peer : Core) (f : Field) (v : option Handle) : Core :=
  fun g => if Field_beq g f then v else peer g.

(** [peer.f != nil] *)
Definition populated (peer : Core) (f : Field) : bool :=
  match peer f with
  | Some _ => true
  | None => false
  end.

(** ** [Core.Close] *)

Section Subsystems.

(** The state of everything outside the supervisor, and the effect and
    result of calling [Close()] on the subsystem held in a field. *)
Variable World : Type.
Variable subsystem_Close : Field -> World -> World * option error.

(** The local state of [Close]: the world so far, the [Close] calls made
    so far with their results, and [errlist]. *)
Record CloseState : Type := mkCloseState {
  world : World;
  calls : list (Field * option error);
  errlist : Group
}.

(** [if peer.f != nil { errlist.Add(peer.f.Close()) }] *)
Definition close_if_set (peer : Core) (f : Field) (s : CloseState)
  : CloseState :=
  match peer f with
  | None => s
  | Some _ =>
      let (w', r) := subsystem_Close f (world s) in
      {| world := w';
         calls := calls s ++ [(f, r)];
         errlist := Add (errlist s) r |}
  end.

(** The result of [Close]: the world afterwards, the calls made, and
    the returned error. *)
Record CloseResult : Type := mkCloseResult {
  close_world : World;
  close_calls : list (Field * option error);
  close_err : option error
}.

Definition Close (peer : Core) (w : World) : CloseResult :=
  let s := {| world := w; calls := []; errlist := [] |} in
  (* close servers, to avoid new connections to closing subsystems *)
  let s := close_if_set peer DowntimeTracking_DetectionChore s in
  let s := close_if_set peer Metrics_Chore s in
  let s := close_if_set peer GracefulExit_Chore s in
  (* close services in reverse initialization order *)
  let s := close_if_set peer Audit_Chore s in
  let s := close_if_set peer Audit_Worker s in
  let s := close_if_set peer Accounting_Rollup s in
  let s := close_if_set peer Accounting_Tally s in
  let s := close_if_set peer DBCleanup_Chore s in
  let s := close_if_set peer Repair_Repairer s in
  let s := close_if_set peer Repair_Checker s in
  let s := close_if_set peer Overlay_Service s in
  let s := close_if_set peer Contact_Service s in
  let s := close_if_set peer Metainfo_Loop s in
  {| close_world := world s;
     close_calls := calls s;
     close_err := Err (errlist s) |}.

(** The fields [Close] was called on, in call order. *)
Definition closed_fields (r : CloseResult) : list Field :=
  map fst (close_calls r).


(** ** [New] *)

(** The two configuration values that decide which steps of [New] run. *)
Record Config : Type := mkConfig {
  Payments_Provider : string;       (* config.Payments.Provider *)
  GracefulExit_Enabled : bool       (* config.GracefulExit.Enabled *)
}.

(** What [New] observes of its [versionInfo] argument. *)
Record VersionInfo : Type := mkVersionInfo {
  IsZero : bool;                    (* versionInfo.IsZero() *)
  Proto : option error              (* the error of versionInfo.Proto() *)
}.

(** What [audit.NewWorker] returns: a worker and a nil error, or an error
    together with a pointer that may or may not be nil. *)
Inductive WorkerResult : Type :=
| WorkerOk
| WorkerFailed (worker_returned : bool) (err : error).

(** The arguments of [New] that decide what it does, with the outcome of
    the two fallible library calls made on them.  The remaining arguments
    are references that [New] only stores and passes on; they are written
    [Given "log"], [Given "full"], [Given "db"], [Given "pointerDB"],
    [Given "revocationDB"] and [Given "liveAccounting"]. *)
Record Inputs : Type := mkInputs {
  versionInfo : VersionInfo;
  config : Config;
  tlsopts_NewOptions : option error;  (* the error of tlsopts.NewOptions *)
  audit_NewWorker : WorkerResult
}.

Definition log : Handle := Given "log".
Definition full : Handle := Given "full".
Definition db : Handle := Given "db".
Definition pointerDB : Handle := Given "pointerDB".
Definition revocationDB : Handle := Given "revocationDB".
Definition liveAccounting : Handle := Given "liveAccounting".

Inductive Level : Type := Debug | Info.

Record LogEntry : Type := mkLogEntry {
  logger : string;
  level : Level;
  message : string
}.

(** The values of the fields [fs] of [peer], as constructor arguments. *)
Definition reads (peer : Core) (fs : list Field)
  : list (Source * option Handle) :=
  map (fun f => (PeerField f, peer f)) fs.

(** A local variable or parameter as constructor argument. *)
Definition local (name : string) (h : Handle) : Source * option Handle :=
  (LocalVar name, Some h).

(** What [New] returns ([new_peer], [new_err]) and what it leaves behind:
    the world, the log lines written, the result of the [peer.Close()]
    call of a failure path, and the struct as it stands at the return,
    whether it is returned or dropped. *)
Record NewResult : Type := mkNewResult {
  new_peer : option Core;
  new_err : option error;
  new_world : World;
  new_log : list LogEntry;
  new_closed : option CloseResult;
  new_built : Core
}.

(** [return nil, errs.Combine(err, peer.Close())] *)
Definition fail (peer : Core) (err : error) (w : World)
  (logs : list LogEntry) : NewResult :=
  let c := Close peer w in
  {| new_peer := None;
     new_err := Combine [Some err; close_err c];
     new_world := close_world c;
     new_log := logs;
     new_closed := Some c;
     new_built := peer |}.

(** The blocks of [New] that cannot fail, one definition per block of the
    source.  Every constructor is called with the values the fields of
    [peer] hold at that moment. *)

(* setup version control *)
Definition setup_version_control (peer : Core) : Core :=
  set peer Version
    (Some (Built "version_checker.NewService" [local "log" log])).

(* setup listener and server, after tlsopts.NewOptions *)
Definition setup_dialer (peer : Core) : Core :=
  let tlsOptions :=
    Built "tlsopts.NewOptions"
      (reads peer [Identity] ++ [local "revocationDB" revocationDB]) in
  set peer Dialer
    (Some (Built "rpc.NewDefaultDialer" [local "tlsOptions" tlsOptions])).

(* setup contact service, after versionInfo.Proto *)
Definition setup_contact_service (peer : Core) : Core :=
  let self := Built "overlay.NodeDossier" (reads peer [Identity]) in
  set peer Contact_Service
    (Some (Built "contact.NewService"
             (reads peer [Log] ++ [local "self" self]
              ++ reads peer [Overlay_Service; DB; Dialer]))).

(* setup overlay *)
Definition setup_overlay (peer : Core) : Core :=
  let peer := set peer Overlay_DB
    (Some (Built "overlay.NewCombinedCache" (reads peer [DB]))) in
  set peer Overlay_Service
    (Some (Built "overlay.NewService" (reads peer [Log; Overlay_DB]))).

(* setup live accounting *)
Definition setup_live_accounting (peer : Core) : Core :=
  set peer LiveAccounting_Cache (Some liveAccounting).

(* setup accounting project usage *)
Definition setup_accounting_project_usage (peer : Core) : Core :=
  set peer Accounting_ProjectUsage
    (Some (Built "accounting.NewService"
             (reads peer [DB; LiveAccounting_Cache]))).

(* setup orders *)
Definition setup_orders (peer : Core) : Core :=
  set peer Orders_Service
    (Some (Built "orders.NewService"
             (reads peer [Log; Identity; Overlay_Service; DB]))).

(* setup metainfo *)
Definition setup_metainfo (peer : Core) : Core :=
  let peer := set peer Metainfo_Database (Some pointerDB) in
  let peer := set peer Metainfo_Service
    (Some (Built "metainfo.NewService"
             (reads peer [Log; Metainfo_Database; DB]))) in
  set peer Metainfo_Loop
    (Some (Built "metainfo.NewLoop" (reads peer [Metainfo_Database]))).

(* setup datarepair *)
Definition setup_datarepair (peer : Core) : Core :=
  let peer := set peer Repair_Checker
    (Some (Built "checker.NewChecker"
             (reads peer [Log; DB; DB; Metainfo_Service; Metainfo_Loop;
                          Overlay_Service]))) in
  let segmentRepairer :=
    Built "repairer.NewSegmentRepairer"
      (local "log" log
       :: reads peer [Metainfo_Service; Orders_Service; Overlay_Service;
                      Dialer; Identity]) in
  set peer Repair_Repairer
    (Some (Built "repairer.NewService"
             (reads peer [Log; DB]
              ++ [local "segmentRepairer" segmentRepairer]))).

(* setup audit, up to the call of audit.NewWorker *)
Definition setup_audit_queue_verifier_reporter (peer : Core) : Core :=
  let peer := set peer Audit_Queue (Some (Built "audit.Queue" [])) in
  let peer := set peer Audit_Verifier
    (Some (Built "audit.NewVerifier"
             (local "log" log
              :: reads peer [Metainfo_Service; Dialer; Overlay_Service; DB;
                             Orders_Service; Identity]))) in
  set peer Audit_Reporter
    (Some (Built "audit.NewReporter"
             (local "log" log :: reads peer [Overlay_Service; DB]))).

(* peer.Audit.Worker, err = audit.NewWorker(...): the assignment of the
   returned pointer, nil or not *)
Definition assign_audit_worker (worker_returned : bool) (peer : Core)
  : Core :=
  let worker :=
    Built "audit.NewWorker"
      (reads peer [Log; Audit_Queue; Audit_Verifier; Audit_Reporter]) in
  set peer Audit_Worker (if worker_returned then Some worker else None).

(* setup audit, after the error check *)
Definition setup_audit_chore (peer : Core) : Core :=
  set peer Audit_Chore
    (Some (Built "audit.NewChore"
             (reads peer [Log; Audit_Queue; Metainfo_Loop]))).

(* setup garbage collection *)
Definition setup_garbage_collection (peer : Core) : Core :=
  set peer GarbageCollection_Service
    (Some (Built "gc.NewService"
             (reads peer [Log; Dialer; Overlay_DB; Metainfo_Loop]))).

(* setup db cleanup *)
Definition setup_db_cleanup (peer : Core) : Core :=
  set peer DBCleanup_Chore
    (Some (Built "dbcleanup.NewChore" (reads peer [Log; DB]))).

(* setup accounting *)
Definition setup_accounting (peer : Core) : Core :=
  let peer := set peer Accounting_Tally
    (Some (Built "tally.New"
             (reads peer [Log; DB; DB; LiveAccounting_Cache;
                          Metainfo_Loop]))) in
  set peer Accounting_Rollup
    (Some (Built "rollup.New" (reads peer [Log; DB]))).

(* setup payments: switch pc.Provider *)
Definition setup_payments (provider : string) (peer : Core) : Core :=
  if String.eqb provider "stripecoinpayments" then
    let service :=
      Built "stripecoinpayments.NewService"
        (reads peer [Log; DB; DB; DB]) in
    let peer := set peer Payments_Accounts
      (Some (Built "stripecoinpayments.Service.Accounts"
               [local "service" service])) in
    set peer Payments_Chore
      (Some (Built "stripecoinpayments.NewChore"
               (reads peer [Log] ++ [local "service" service])))
  else
    set peer Payments_Accounts
      (Some (Built "mockpayments.Accounts" [])).

(* setup graceful exit; returns the struct and the log lines written *)
Definition setup_graceful_exit (enabled : bool) (peer : Core)
  : Core * list LogEntry :=
  if enabled then
    (set peer GracefulExit_Chore
       (Some (Built "gracefulexit.NewChore"
                (reads peer [Log; DB; Overlay_DB; Metainfo_Loop]))),
     [])
  else
    (peer,
     [{| logger := "gracefulexit"; level := Info; message := "disabled" |}]).

(* setup metrics service *)
Definition setup_metrics_service (peer : Core) : Core :=
  set peer Metrics_Chore
    (Some (Built "metrics.NewChore" (reads peer [Log; Metainfo_Loop]))).

(* setup downtime tracking *)
Definition setup_downtime_tracking (peer : Core) : Core :=
  let peer := set peer DowntimeTracking_Service
    (Some (Built "downtime.NewService"
             (reads peer [Log; Overlay_Service; Contact_Service]))) in
  set peer DowntimeTracking_DetectionChore
    (Some (Built "downtime.NewDetectionChore"
             (reads peer [Log; Overlay_Service; DowntimeTracking_Service;
                          DB]))).

(** [New]: the blocks in the order of the source, with its three early
    returns. *)
Definition New (i : Inputs) (w : World) : NewResult :=
  let peer := set (set (set zero_Core Log (Some log))
                     Identity (Some full)) DB (Some db) in
  let logs :=
    if IsZero (versionInfo i) then []
    else [{| logger := ""; level := Debug;
             message := "Binary Version: %s with CommitHash %s, built at %s as Release %v" |}] in
  let peer := setup_version_control peer in
  let logs := logs ++ [{| logger := ""; level := Debug;
                          message := "Starting listener and server" |}] in
  match tlsopts_NewOptions i with
  | Some err => fail peer err w logs
  | None =>
  let peer := setup_dialer peer in
  match Proto (versionInfo i) with
  | Some err => fail peer err w logs
  | None =>
  let peer := setup_contact_service peer in
  let peer := setup_overlay peer in
  let peer := setup_live_accounting peer in
  let peer := setup_accounting_project_usage peer in
  let peer := setup_orders peer in
  let peer := setup_metainfo peer in
  let peer := setup_datarepair peer in
  let peer := setup_audit_queue_verifier_reporter peer in
  match audit_NewWorker i with
  | WorkerFailed worker_returned err =>
      fail (assign_audit_worker worker_returned peer) err w logs
  | WorkerOk =>
  let peer := assign_audit_worker true peer in
  let peer := setup_audit_chore peer in
  let peer := setup_garbage_collection peer in
  let peer := setup_db_cleanup peer in
  let peer := setup_accounting peer in
  let peer := setup_payments (Payments_Provider (config i)) peer in
  let step := setup_graceful_exit (GracefulExit_Enabled (config i)) peer in
  let peer := fst step in
  let logs := logs ++ snd step in
  let peer := setup_metrics_service peer in
  let peer := setup_downtime_tracking peer in
  {| new_peer := Some peer;
     new_err := None;
     new_world := w;
     new_log := logs;
     new_closed := None;
     new_built := peer |}
  end end end.

End Subsystems.

Arguments mkCloseState {World}.
Arguments world {World}.
Arguments calls {World}.
Arguments errlist {World}.
Arguments mkCloseResult {World}.
Arguments close_world {World}.
Arguments close_calls {World}.
Arguments close_err {World}.
Arguments closed_fields {World}.
Arguments new_peer {World}.
Arguments new_err {World}.
Arguments new_world {World}.
Arguments new_log {World}.
Arguments new_closed {World}.
Arguments new_built {World}.

(** The fields [Close] looks at, in the order of its thirteen [if]
    statements. *)
Definition Close_order : list Field :=
  [DowntimeTracking_DetectionChore; Metrics_Chore; GracefulExit_Chore;
   Audit_Chore; Audit_Worker;
   Accounting_Rollup; Accounting_Tally;
   DBCleanup_Chore; Repair_Repairer; Repair_Checker;
   Overlay_Service; Contact_Service; Metainfo_Loop].

(** The [if] statements of [Close] for the fields [l], one after the
    other. *)
Definition close_each {World : Type}
  (subsystem_Close : Field -> World -> World * option error)
  (peer : Core) (l : list Field) (s : CloseState World) : CloseState World :=
  fold_left (fun s f => close_if_set World subsystem_Close peer f s) l s.

(** ** [Core.Run] and golang.org/x/sync/errgroup *)

(** An [errgroup.Group] with the context it was made with: the tasks
    started by [Go] that have not returned yet (the wait group), whether
    the context is canceled, and the error kept by [errOnce]. *)
Record errgroup : Type := mkErrgroup {
  pending : list Field;
  ctx_canceled : bool;
  group_err : option error
}.

(** [errgroup.WithContext(ctx)] *)
Definition WithContext : errgroup :=
  {| pending := []; ctx_canceled := false; group_err := None |}.

(** [group.Go(func() error { return errs2.IgnoreCanceled(peer.f.Run(ctx)) })]
    starts the task; a task is named by the field whose [Run] it calls. *)
Definition Go (group : errgroup) (f : Field) : errgroup :=
  {| pending := pending group ++ [f];
     ctx_canceled := ctx_canceled group;
     group_err := group_err group |}.

(** What happens while [Wait] blocks: the [Run] of a started subsystem
    returns some error value, or the parent context is canceled. *)
Inductive Event : Type :=
| Returns (f : Field) (result : option error)
| ParentCanceled.

(** Remove the first occurrence of [f]. *)
Fixpoint remove_first (f : Field) (l : list Field) : list Field :=
  match l with
  | [] => []
  | g :: l' => if Field_beq f g then l' else g :: remove_first f l'
  end.

Definition is_pending (f : Field) (group : errgroup) : bool :=
  existsb (Field_beq f) (pending group).

(** The end of a task started by [Go]: its function value is
    [IgnoreCanceled] of what [Run] returned; a non-nil value goes through
    [errOnce], which keeps the first one and cancels the context; then the
    task leaves the wait group. *)
Definition task_returns (group : errgroup) (f : Field)
  (result : option error) : errgroup :=
  match IgnoreCanceled result, group_err group with
  | Some e, None =>
      {| pending := remove_first f (pending group);
         ctx_canceled := true;
         group_err := Some e |}
  | _, _ =>
      {| pending := remove_first f (pending group);
         ctx_canceled := ctx_canceled group;
         group_err := group_err group |}
  end.

(** One event; [None] when the event cannot happen (the task is not
    running). *)
Definition step (group : errgroup) (ev : Event) : option errgroup :=
  match ev with
  | Returns f result =>
      if is_pending f group then Some (task_returns group f result)
      else None
  | ParentCanceled =>
      Some {| pending := pending group;
              ctx_canceled := true;
              group_err := group_err group |}
  end.

Fixpoint steps (group : errgroup) (schedule : list Event)
  : option errgroup :=
  match schedule with
  | [] => Some group
  | ev :: rest =>
      match step group ev with
      | Some group' => steps group' rest
      | None => None
      end
  end.

(** [group.Wait()] under the events of [schedule]: it returns, with the
    error kept by the group, once no started task is left running.
    [None]: [schedule] is not an execution that lets [Wait] return. *)
Definition Wait (group : errgroup) (schedule : list Event)
  : option (option error) :=
  match steps group schedule with
  | Some group' =>
      match pending group' with
      | [] => Some (group_err group')
      | _ :: _ => None
      end
  | None => None
  end.

(** The group as it stands when [Run] reaches [group.Wait()]. *)
Definition Run_group (peer : Core) : errgroup :=
  let group := WithContext in
  let group := Go group Metainfo_Loop in
  let group := Go group Version in
  let group := Go group Repair_Checker in
  let group := Go group Repair_Repairer in
  let group := Go group DBCleanup_Chore in
  let group := Go group Accounting_Tally in
  let group := Go group Accounting_Rollup in
  let group := Go group Audit_Worker in
  let group := Go group Audit_Chore in
  let group := Go group GarbageCollection_Service in
  let group :=
    if populated peer GracefulExit_Chore
    then Go group GracefulExit_Chore else group in
  let group := Go group Metrics_Chore in
  let group :=
    if populated peer Payments_Chore
    then Go group Payments_Chore else group in
  let group := Go group DowntimeTracking_DetectionChore in
  group.

(** The tasks [Run] starts, in the order of its [group.Go] calls. *)
Definition Run_tasks (peer : Core) : list Field :=
  pending (Run_group peer).

(** [Run]: the tasks are started, then [group.Wait()] is returned.  The
    events of [schedule] are those of the whole call; a task that returns
    before a later [Go] is an event all the same.  The deferred
    [mon.Task()] only reports to monitoring and is left out. *)
Definition Run (peer : Core) (schedule : list Event)
  : option (option error) :=
  Wait (Run_group peer) schedule.


(** The tasks that have returned in a schedule, in order. *)
Fixpoint returned (schedule : list Event) : list Field :=
  match schedule with
  | [] => []
  | Returns f _ :: rest => f :: returned rest
  | ParentCanceled :: rest => returned rest
  end.

(** The first error of a schedule that is not a cancellation. *)
Fixpoint first_failure (schedule : list Event) : option error :=
  match schedule with
  | [] => None
  | Returns _ result :: rest =>
      match IgnoreCanceled result with
      | Some e => Some e
      | None => first_failure rest
      end
  | ParentCanceled :: rest => first_failure rest
  end.

(** ** Notions used to state the properties *)

(** The non-nil errors among the results of a list of calls, in call
    order. *)
Fixpoint errors_of (cs : list (Field * option error)) : list error :=
  match cs with
  | [] => []
  | (_, None) :: rest => errors_of rest
  | (_, Some e) :: rest => e :: errors_of rest
  end.

(** Every call of the list returned nil. *)
Definition all_nil (cs : list (Field * option error)) : bool :=
  forallb (fun c => match snd c with None => true | Some _ => false end) cs.

(** The error of the first step of [New] that fails on these inputs, in
    the order [New] takes the steps. *)
Definition failing_step (i : Inputs) : option error :=
  match tlsopts_NewOptions i with
  | Some err => Some err
  | None =>
      match Proto (versionInfo i) with
      | Some err => Some err
      | None =>
          match audit_NewWorker i with
          | WorkerFailed _ err => Some err
          | WorkerOk => None
          end
      end
  end.

(** The subsystems built before the failing step that [Core.Close]
    handles, in [Close]'s order: none when the TLS options or the version
    proto fail; for a failing audit worker, the worker if a pointer came
    back with the error, then the repairer, the checker, the overlay and
    contact services and the metainfo loop. *)
Definition closed_on_failure (i : Inputs) : list Field :=
  match tlsopts_NewOptions i, Proto (versionInfo i), audit_NewWorker i with
  | None, None, WorkerFailed worker_returned _ =>
      (if worker_returned then [Audit_Worker] else [])
      ++ [Repair_Repairer; Repair_Checker; Overlay_Service;
          Contact_Service; Metainfo_Loop]
  | _, _, _ => []
  end.

(** The same inputs with [config.GracefulExit.Enabled] set to [b]. *)
Definition with_GracefulExit (b : bool) (i : Inputs) : Inputs :=
  {| versionInfo := versionInfo i;
     config := {| Payments_Provider := Payments_Provider (config i);
                  GracefulExit_Enabled := b |};
     tlsopts_NewOptions := tlsopts_NewOptions i;
     audit_NewWorker := audit_NewWorker i |}.

(** The configuration [New] cannot tell from [c]: it looks at the
    provider only to compare it with "stripecoinpayments". *)
Definition canonical_Config (c : Config) : Config :=
  {| Payments_Provider :=
       if String.eqb (Payments_Provider c) "stripecoinpayments"
       then "stripecoinpayments" else "mock";
     GracefulExit_Enabled := GracefulExit_Enabled c |}.

(** The fields of [peer] that were still nil when a constructor read them
    to build [h]: those read for [h] itself and for the local values
    passed to its constructor. *)
Fixpoint nil_reads (h : Handle) : list Field :=
  match h with
  | Given _ => []
  | Built _ inputs =>
      flat_map
        (fun a =>
           match a with
           | (PeerField f, None) => [f]
           | (PeerField _, Some _) => []
           | (LocalVar _, Some h') => nil_reads h'
           | (LocalVar _, None) => []
           end)
        inputs
  end.

(** The result is nil or [context.Canceled]. *)
Definition nil_or_canceled (ev : Event) : bool :=
  match ev with
  | Returns _ None => true
  | Returns _ (Some ContextCanceled) => true
  | Returns _ (Some _) => false
  | ParentCanceled => true
  end.


(** ** Concrete worlds and inputs *)

(** A world that counts the [Close] calls on each field; every [Close]
    succeeds. *)
Definition Counting : Type := Field -> nat.

Definition counting_Close (f : Field) (w : Counting)
  : Counting * option error :=
  (fun g => if Field_beq g f then S (w g) else w g, None).

Definition no_calls : Counting := fun _ => 0.

(** The same, with subsystems that refuse a second [Close], as an
    [os.File] does. *)
Definition strict_Close (f : Field) (w : Counting)
  : Counting * option error :=
  (fun g => if Field_beq g f then S (w g) else w g,
   match w f with
   | 0 => None
   | S _ => Some (Failure "already closed")
   end).

(** A world where every [Close] fails. *)
Definition failing_Close (f : Field) (w : Counting)
  : Counting * option error :=
  (fun g => if Field_beq g f then S (w g) else w g,
   Some (Failure "close failed")).

Definition default_Config : Config :=
  {| Payments_Provider := "mock"; GracefulExit_Enabled := false |}.

Definition stripe_Config : Config :=
  {| Payments_Provider := "stripecoinpayments";
     GracefulExit_Enabled := true |}.

Definition good_Inputs (c : Config) : Inputs :=
  {| versionInfo := {| IsZero := false; Proto := None |};
     config := c;
     tlsopts_NewOptions := None;
     audit_NewWorker := WorkerOk |}.

(** Inputs whose TLS options are rejected. *)
Definition bad_tls_Inputs : Inputs :=
  {| versionInfo := {| IsZero := true; Proto := None |};
     config := default_Config;
     tlsopts_NewOptions := Some (Failure "tlsopts: bad config");
     audit_NewWorker := WorkerOk |}.

(** Inputs whose audit worker cannot be built. *)
Definition bad_worker_Inputs : Inputs :=
  {| versionInfo := {| IsZero := true; Proto := None |};
     config := default_Config;
     tlsopts_NewOptions := None;
     audit_NewWorker := WorkerFailed false (Failure "audit: bad config") |}.

(** A struct with only the metainfo loop set. *)
Definition loop_only : Core :=
  set zero_Core Metainfo_Loop (Some (Built "metainfo.NewLoop" [])).

(** The struct [New] returns on [good_Inputs], or the zero struct. *)
Definition built_peer (c : Config) : Core :=
  match new_peer (New Counting counting_Close (good_Inputs c) no_calls) with
  | Some peer => peer
  | None => zero_Core
  end.

(** Every started task returns nil, in start order. *)
Definition quiet_schedule (peer : Core) : list Event :=
  map (fun f => Returns f None) (Run_tasks peer).

(** The parent context is canceled and every started task returns
    [context.Canceled], in start order. *)
Definition canceled_schedule (peer : Core) : list Event :=
  ParentCanceled
  :: map (fun f => Returns f (Some ContextCanceled)) (Run_tasks peer).

(** The repair checker fails first, the metrics chore fails next, every
    other task then returns [context.Canceled]. *)
Definition failing_schedule (peer : Core) : list Event :=
  Returns Repair_Checker (Some (Failure "checker: queue unavailable"))
  :: Returns Metrics_Chore (Some (Failure "metrics: loop closed"))
  :: map (fun f => Returns f (Some ContextCanceled))
       (remove_first Metrics_Chore
          (remove_first Repair_Checker (Run_tasks peer))).

(** ** What it means to close subsystems one after the other *)

(** [Close()] is called on the subsystem of each field of [fields], in
    that order, each call starting from the world the call before left
    behind.  Returns the world after the last call and what every call
    returned.  This is written with [subsystem_Close] alone; [Close] and
    its [if] statements are compared with it. *)
Fixpoint invoke_in_order {World : Type}
  (subsystem_Close : Field -> World -> World * option error)
  (fields : list Field) (w : World) : World * list (Field * option error) :=
  match fields with
  | [] => (w, [])
  | f :: rest =>
      let out := subsystem_Close f w in
      let outs := invoke_in_order subsystem_Close rest (fst out) in
      (fst outs, (f, snd out) :: snd outs)
  end.

(** The result of closing exactly [fields], in that order, and returning
    the errors of those calls together. *)
Definition closing {World : Type}
  (subsystem_Close : Field -> World -> World * option error)
  (fields : list Field) (w : World) : CloseResult World :=
  let out := invoke_in_order subsystem_Close fields w in
  {| close_world := fst out;
     close_calls := snd out;
     close_err := Err (errors_of (snd out)) |}.

(** Subsystems that write their own name into the world when their
    [Close] is called: the world is the list of the calls received. *)
Definition recording_Close (f : Field) (w : list Field)
  : list Field * option error :=
  (w ++ [f], None).


(** The seven fields no statement of [Close] names. *)
Definition never_closed : list Field :=
  [Version; Orders_Service; Metainfo_Service; GarbageCollection_Service;
   Accounting_ProjectUsage; Payments_Chore; DowntimeTracking_Service].

(** ** More notions about [New], [Run] and [Close] *)

(** The same inputs with [versionInfo.IsZero()] set to [b]. *)
Definition with_IsZero (b : bool) (i : Inputs) : Inputs :=
  {| versionInfo := {| IsZero := b; Proto := Proto (versionInfo i) |};
     config := config i;
     tlsopts_NewOptions := tlsopts_NewOptions i;
     audit_NewWorker := audit_NewWorker i |}.

(** The line [New] logs for a non-zero version. *)
Definition binary_version_line : LogEntry :=
  {| logger := ""; level := Debug;
     message := "Binary Version: %s with CommitHash %s, built at %s as Release %v" |}.

(** The fields of [peer] that held a reference when a constructor read
    them to build [h], for [h] itself and for the local values passed to
    its constructor: what [h] was built from. *)
Fixpoint built_from (h : Handle) : list Field :=
  match h with
  | Given _ => []
  | Built _ inputs =>
      flat_map
        (fun a =>
           match a with
           | (PeerField f, Some _) => [f]
           | (PeerField _, None) => []
           | (LocalVar _, Some h') => built_from h'
           | (LocalVar _, None) => []
           end)
        inputs
  end.

(** The context has been canceled from outside. *)
Definition parent_canceled (schedule : list Event) : bool :=
  existsb (fun ev => match ev with ParentCanceled => true | _ => false end)
    schedule.

(** The twelve tasks [Run] starts without looking at the struct. *)
Definition Run_unguarded : list Field :=
  [Metainfo_Loop; Version; Repair_Checker; Repair_Repairer;
   DBCleanup_Chore; Accounting_Tally; Accounting_Rollup;
   Audit_Worker; Audit_Chore; GarbageCollection_Service;
   Metrics_Chore; DowntimeTracking_DetectionChore].

(** [func (peer *Core) ID() storj.NodeID { return peer.Identity.ID }]: the
    node ID is read off the identity the struct holds. *)
Definition ID (peer : Core) : option Handle := peer Identity.

(** ** The batch aggregator (private/storage/streams/batchaggregator) *)

Module BatchAggregator.

Section Batcher.

(** The batch items and responses of [metaclient], and a
    [metaclient.Batcher]: its state, and what [Batch(ctx, items...)] does
    to it and returns. *)
Variable BatchItem : Type.
Variable BatchResponse : Type.
Variable Batcher : Type.
Variable Batch :
  Batcher -> list BatchItem -> Batcher * (list BatchResponse * option error).

(** An [Aggregator].  The mutex is held for the whole of every method, so
    a method is one step; [a.scheduled[:0]] keeps the backing array, but
    no method appends to it while [Batch] runs, so [Batch] sees the items
    as they were scheduled.  [issued] is not a field of the struct: it
    records the argument of every [Batch] call made so far. *)
Record Aggregator : Type := mkAggregator {
  batcher : Batcher;
  scheduled : list BatchItem;
  issued : list (list BatchItem)
}.

Definition New (b : Batcher) : Aggregator :=
  {| batcher := b; scheduled := []; issued := [] |}.

Definition Schedule (a : Aggregator) (batchItem : BatchItem) : Aggregator :=
  {| batcher := batcher a;
     scheduled := scheduled a ++ [batchItem];
     issued := issued a |}.

Definition issueBatchLocked (a : Aggregator)
  : Aggregator * (list BatchResponse * option error) :=
  let batchItems := scheduled a in
  let a := {| batcher := batcher a; scheduled := []; issued := issued a |} in
  match batchItems with
  | [] => (a, ([], None))
  | _ :: _ =>
      let (b, result) := Batch (batcher a) batchItems in
      ({| batcher := b;
          scheduled := scheduled a;
          issued := issued a ++ [batchItems] |},
       result)
  end.

Definition ScheduleAndFlush (a : Aggregator) (batchItem : BatchItem)
  : Aggregator * (option BatchResponse * option error) :=
  let a := {| batcher := batcher a;
              scheduled := scheduled a ++ [batchItem];
              issued := issued a |} in
  let (a, result) := issueBatchLocked a in
  let (resp, err) := result in
  match err with
  | Some e => (a, (None, Some e))
  | None =>
      match resp with
      | [] => (a, (None, Some (Failure "missing batch responses")))
      | r :: rest => (a, (Some (last rest r), None))
      end
  end.

Definition Flush (a : Aggregator) : Aggregator * option error :=
  let (a, result) := issueBatchLocked a in
  (a, snd result).

(** A call of one of the three methods. *)
Inductive Call : Type :=
| CallSchedule (batchItem : BatchItem)
| CallScheduleAndFlush (batchItem : BatchItem)
| CallFlush.

Definition call (a : Aggregator) (c : Call) : Aggregator :=
  match c with
  | CallSchedule batchItem => Schedule a batchItem
  | CallScheduleAndFlush batchItem => fst (ScheduleAndFlush a batchItem)
  | CallFlush => fst (Flush a)
  end.

(** A sequence of calls, one after the other. *)
Definition calls_in_order (a : Aggregator) (cs : list Call) : Aggregator :=
  fold_left call cs a.

(** The items handed to the aggregator by a sequence of calls. *)
Fixpoint items_of (cs : list Call) : list BatchItem :=
  match cs with
  | [] => []
  | CallSchedule batchItem :: rest => batchItem :: items_of rest
  | CallScheduleAndFlush batchItem :: rest => batchItem :: items_of rest
  | CallFlush :: rest => items_of rest
  end.

(** The number of flushing calls of a sequence. *)
Fixpoint flushes_of (cs : list Call) : nat :=
  match cs with
  | [] => 0
  | CallSchedule _ :: rest => flushes_of rest
  | _ :: rest => S (flushes_of rest)
  end.

End Batcher.

Arguments mkAggregator {BatchItem Batcher}.
Arguments batcher {BatchItem Batcher}.
Arguments scheduled {BatchItem Batcher}.
Arguments issued {BatchItem Batcher}.
Arguments New {BatchItem Batcher}.
Arguments Schedule {BatchItem Batcher}.
Arguments issueBatchLocked {BatchItem BatchResponse Batcher}.
Arguments ScheduleAndFlush {BatchItem BatchResponse Batcher}.
Arguments Flush {BatchItem BatchResponse Batcher}.
Arguments CallSchedule {BatchItem}.
Arguments CallScheduleAndFlush {BatchItem}.
Arguments CallFlush {BatchItem}.
Arguments call {BatchItem BatchResponse Batcher}.
Arguments calls_in_order {BatchItem BatchResponse Batcher}.
Arguments items_of {BatchItem}.
Arguments flushes_of {BatchItem}.

(** A batcher that answers every item with its successor and counts its
    calls. *)
Definition echo_Batch (calls : nat) (items : list nat)
  : nat * (list nat * option error) :=
  (S calls, (map S items, None)).

(** A batcher that fails every call. *)
Definition failing_Batch (calls : nat) (items : list nat)
  : nat * (list nat * option error) :=
  (S calls, ([], Some (Failure "batch failed"))).

(** A batcher that answers the first item only. *)
Definition short_Batch (calls : nat) (items : list nat)
  : nat * (list nat * option error) :=
  (S calls, (firstn 1 (map S items), None)).

End BatchAggregator.

(** ** More concrete inputs *)

(** Inputs whose version information cannot be converted. *)
Definition bad_proto_Inputs : Inputs :=
  {| versionInfo := {| IsZero := false;
                       Proto := Some (Failure "version: invalid") |};
     config := stripe_Config;
     tlsopts_NewOptions := None;
     audit_NewWorker := WorkerOk |}.

(** The tasks return in the reverse of their start order; the repair
    checker fails, every other task returns [context.Canceled]. *)
Definition one_failure_schedule (peer : Core) : list Event :=
  map (fun f =>
         Returns f
           (if Field_beq f Repair_Checker
            then Some (Failure "checker: queue unavailable")
            else Some ContextCanceled))
    (rev (Run_tasks peer)).

(** An aggregator on the echoing batcher with two items scheduled. *)
Definition two_scheduled : BatchAggregator.Aggregator nat nat :=
  BatchAggregator.Schedule
    (BatchAggregator.Schedule (BatchAggregator.New 0) 10) 20.

(** * Properties *)

(** ** [errs.Group] *)

Lemma errors_of_app (cs ds : list (Field * option error)) :
  errors_of (cs ++ ds) = errors_of cs ++ errors_of ds.
Proof.
  induction cs as [| [f [e |]] cs IH]; simpl; rewrite ?IH; reflexivity.
Qed.

Lemma errors_of_snoc (cs : list (Field * option error)) (f : Field)
  (r : option error) :
  errors_of (cs ++ [(f, r)]) = Add (errors_of cs) r.
Proof.
  rewrite errors_of_app. destruct r; simpl; auto using app_nil_r.
Qed.

Lemma errors_of_nil_iff (cs : list (Field * option error)) :
  errors_of cs = [] <-> all_nil cs = true.
Proof.
  induction cs as [| [f [e |]] cs IH]; simpl; try tauto.
  split; discriminate.
Qed.

Lemma Err_None_iff (group : Group) : Err group = None <-> group = [].
Proof.
  destruct group as [| e [| e' group]]; simpl; split;
    congruence || discriminate.
Qed.

(** ** [Core.Close] *)

Section CloseFacts.

Variable World : Type.
Variable subsystem_Close : Field -> World -> World * option error.

Let close_if_set' := close_if_set World subsystem_Close.
Let close_each' := close_each subsystem_Close.
Let Close' := Close World subsystem_Close.

(** [Close] is its thirteen [if] statements in the order of
    [Close_order]. *)
Lemma Close_unfold (peer : Core) (w : World) :
  Close' peer w =
  let s := close_each' peer Close_order
             {| world := w; calls := []; errlist := [] |} in
  {| close_world := world s;
     close_calls := calls s;
     close_err := Err (errlist s) |}.
Proof. reflexivity. Qed.

Lemma close_if_set_nil (peer : Core) (f : Field) (s : CloseState World) :
  peer f = None -> close_if_set' peer f s = s.
Proof.
  intros H. unfold close_if_set', close_if_set. rewrite H. reflexivity.
Qed.

Lemma close_if_set_calls (peer : Core) (f : Field) (s : CloseState World) :
  map fst (calls (close_if_set' peer f s)) =
  map fst (calls s) ++ (if populated peer f then [f] else []).
Proof.
  unfold close_if_set', close_if_set, populated.
  destruct (peer f) as [h |].
  - destruct (subsystem_Close f (world s)) as [w' r]; simpl.
    rewrite map_app. reflexivity.
  - rewrite app_nil_r. reflexivity.
Qed.

Lemma close_if_set_errlist (peer : Core) (f : Field) (s : CloseState World) :
  errlist s = errors_of (calls s) ->
  errlist (close_if_set' peer f s) = errors_of (calls (close_if_set' peer f s)).
Proof.
  intros H. unfold close_if_set', close_if_set.
  destruct (peer f) as [h |]; [| exact H].
  destruct (subsystem_Close f (world s)) as [w' r]; simpl.
  rewrite errors_of_snoc, H. reflexivity.
Qed.

Lemma close_each_calls (peer : Core) (l : list Field) :
  forall s : CloseState World,
    map fst (calls (close_each' peer l s)) =
    map fst (calls s) ++ filter (populated peer) l.
Proof.
  induction l as [| f l IH]; intros s; simpl.
  - rewrite app_nil_r. reflexivity.
  - unfold close_each', close_each in *. simpl. rewrite IH.
    fold close_if_set'. rewrite close_if_set_calls.
    rewrite <- app_assoc. destruct (populated peer f); reflexivity.
Qed.

Lemma close_each_errlist (peer : Core) (l : list Field) :
  forall s : CloseState World,
    errlist s = errors_of (calls s) ->
    errlist (close_each' peer l s) = errors_of (calls (close_each' peer l s)).
Proof.
  induction l as [| f l IH]; intros s H; simpl; [exact H |].
  unfold close_each', close_each in *. simpl. apply IH.
  apply close_if_set_errlist, H.
Qed.

(** The fields [Close] calls [Close()] on are the populated ones among
    those of its [if] statements, in that order. *)
Lemma Close_closed_fields (peer : Core) (w : World) :
  closed_fields (Close' peer w) = filter (populated peer) Close_order.
Proof.
  rewrite Close_unfold. unfold closed_fields. simpl close_calls.
  apply (close_each_calls peer Close_order
           {| world := w; calls := []; errlist := [] |}).
Qed.

(** The error [Close] returns is [Err] of the non-nil results of its
    calls, in call order. *)
Lemma Close_err_collects (peer : Core) (w : World) :
  close_err (Close' peer w) = Err (errors_of (close_calls (Close' peer w))).
Proof.
  rewrite Close_unfold. simpl. f_equal.
  apply (close_each_errlist peer Close_order
           {| world := w; calls := []; errlist := [] |}).
  reflexivity.
Qed.

Lemma Close_err_None_iff (peer : Core) (w : World) :
  close_err (Close' peer w) = None <->
  all_nil (close_calls (Close' peer w)) = true.
Proof.
  rewrite Close_err_collects, Err_None_iff. apply errors_of_nil_iff.
Qed.

Lemma filter_populated_Forall (peer : Core) (l : list Field) :
  Forall (fun f => peer f <> None) (filter (populated peer) l).
Proof.
  apply Forall_forall. intros f Hf. apply filter_In in Hf.
  destruct Hf as [_ Hf]. unfold populated in Hf.
  destruct (peer f); congruence.
Qed.

Lemma NoDup_Close_order : NoDup Close_order.
Proof.
  unfold Close_order.
  repeat (constructor; [simpl; intuition discriminate |]). constructor.
Qed.

Lemma NoDup_filter {A : Type} (p : A -> bool) (l : list A) :
  NoDup l -> NoDup (filter p l).
Proof.
  induction 1 as [| a l Hin Hnd IH]; simpl; [constructor |].
  destruct (p a); [| exact IH].
  constructor; [| exact IH].
  intros H. apply filter_In in H. tauto.
Qed.

Lemma close_each_invoke (peer : Core) (l : list Field) :
  forall s : CloseState World,
    close_each' peer l s =
    let out :=
      invoke_in_order subsystem_Close (filter (populated peer) l) (world s) in
    {| world := fst out;
       calls := calls s ++ snd out;
       errlist := errlist s ++ errors_of (snd out) |}.
Proof.
  induction l as [| f l IH]; intros s.
  - destruct s as [w cs es]. simpl. rewrite !app_nil_r. reflexivity.
  - unfold close_each', close_each in *. simpl fold_left. rewrite IH.
    unfold close_if_set, populated. simpl filter.
    destruct (peer f) as [h |]; [| reflexivity].
    unfold populated. simpl invoke_in_order.
    destruct (subsystem_Close f (world s)) as [w1 r]. simpl.
    rewrite <- !app_assoc. simpl.
    destruct r as [e |]; simpl; rewrite <- ?app_assoc; reflexivity.
Qed.

(** [Close] does exactly this: it calls [Close()] on the populated fields
    among those of its [if] statements, in that order, each call on the
    world the call before left, and returns the errors of those calls
    together. *)
Lemma Close_closing (peer : Core) (w : World) :
  Close' peer w =
  closing subsystem_Close (filter (populated peer) Close_order) w.
Proof.
  rewrite Close_unfold. cbv zeta.
  rewrite (close_each_invoke peer Close_order
             {| world := w; calls := []; errlist := [] |}).
  reflexivity.
Qed.

Lemma invoke_in_order_fields (fields : list Field) :
  forall w : World,
    map fst (snd (invoke_in_order subsystem_Close fields w)) = fields.
Proof.
  induction fields as [| f rest IH]; intros w; simpl; [reflexivity |].
  rewrite IH. reflexivity.
Qed.

(** Two families of subsystems that behave alike on the fields closed give
    the same outcome. *)
Lemma invoke_in_order_ext
  (other_Close : Field -> World -> World * option error)
  (fields : list Field) :
  (forall f w, In f fields -> subsystem_Close f w = other_Close f w) ->
  forall w,
    invoke_in_order subsystem_Close fields w
    = invoke_in_order other_Close fields w.
Proof.
  induction fields as [| f rest IH]; intros H w; simpl; [reflexivity |].
  rewrite (H f w (or_introl eq_refl)).
  rewrite IH; [reflexivity |].
  intros g w' Hg. apply H. right. exact Hg.
Qed.

End CloseFacts.

Lemma invoke_recording (fields : list Field) :
  forall w : list Field,
    fst (invoke_in_order recording_Close fields w) = w ++ fields.
Proof.
  induction fields as [| f rest IH]; intros w; simpl.
  - rewrite app_nil_r. reflexivity.
  - rewrite IH, <- app_assoc. reflexivity.
Qed.

Lemma invoke_counting_untouched (fields : list Field) (f : Field) :
  ~ In f fields ->
  forall w : Counting,
    fst (invoke_in_order counting_Close fields w) f = w f.
Proof.
  induction fields as [| g rest IH]; intros Hnot w; simpl; [reflexivity |].
  rewrite IH; [| intros Hin; apply Hnot; right; exact Hin].
  destruct (Field_beq f g) eqn:E; [| reflexivity].
  exfalso. apply Hnot. left. symmetry.
  apply internal_Field_dec_bl. exact E.
Qed.

Lemma never_closed_not_in_Close_order (peer : Core) (f : Field) :
  In f never_closed -> ~ In f (filter (populated peer) Close_order).
Proof.
  intros Hf Hin. apply filter_In in Hin. destruct Hin as [Hin _].
  unfold never_closed in Hf. simpl in Hf, Hin.
  repeat (destruct Hf as [Hf | Hf];
          [subst f; intuition discriminate |]).
  exact Hf.
Qed.

(** C7.  [Core.Close] calls the [Close] methods of the populated
    subsystems in exactly this sequence: downtime detection chore, metrics
    chore, graceful-exit chore, audit chore, audit worker, accounting
    rollup, accounting tally, db-cleanup chore, repairer, repair checker,
    overlay service, contact service, and the metainfo loop last.  Each
    call works on the world the call before left; subsystems that record
    the calls they receive record exactly this sequence. *)
Theorem Close_sequence :
  forall (World : Type)
         (subsystem_Close : Field -> World -> World * option error)
         (peer : Core) (w : World),
    Close World subsystem_Close peer w =
    closing subsystem_Close
      (filter (populated peer)
         [DowntimeTracking_DetectionChore; Metrics_Chore; GracefulExit_Chore;
          Audit_Chore; Audit_Worker; Accounting_Rollup; Accounting_Tally;
          DBCleanup_Chore; Repair_Repairer; Repair_Checker;
          Overlay_Service; Contact_Service; Metainfo_Loop])
      w
    /\ forall received : list Field,
         close_world (Close (list Field) recording_Close peer received) =
         received
         ++ filter (populated peer)
              [DowntimeTracking_DetectionChore; Metrics_Chore;
               GracefulExit_Chore; Audit_Chore; Audit_Worker;
               Accounting_Rollup; Accounting_Tally; DBCleanup_Chore;
               Repair_Repairer; Repair_Checker; Overlay_Service;
               Contact_Service; Metainfo_Loop].
Proof.
  intros World subsystem_Close peer w. split.
  - apply Close_closing.
  - intros received. rewrite Close_closing. unfold closing.
    cbn [close_world]. apply invoke_recording.
Qed.

(** C6.  During [Core.Close] the [Close] of every populated slot among
    those [Close] handles is called, whatever the earlier calls returned:
    the world [Close] leaves and the results it gathers are those of
    calling every one of these subsystems in turn.  The returned error is
    [Err] of all the non-nil results of those calls, in call order, hence
    nil exactly when every call returned nil; and for a nil slot the
    statement does nothing at all: no call, no error, no change. *)
Theorem Close_aggregates :
  forall (World : Type)
         (subsystem_Close : Field -> World -> World * option error)
         (peer : Core) (w : World),
    let r := Close World subsystem_Close peer w in
    let fields := filter (populated peer) Close_order in
    let out := invoke_in_order subsystem_Close fields w in
    close_world r = fst out
    /\ close_calls r = snd out
    /\ map fst (snd out) = fields
    /\ closed_fields r = fields
    /\ close_err r = Err (errors_of (snd out))
    /\ close_err r = Err (errors_of (close_calls r))
    /\ (close_err r = None <-> all_nil (snd out) = true)
    /\ (forall (f : Field) (s : CloseState World),
          peer f = None -> close_if_set World subsystem_Close peer f s = s).
Proof.
  intros World subsystem_Close peer w r fields out.
  assert (E : r = closing subsystem_Close fields w) by apply Close_closing.
  split; [rewrite E; reflexivity |].
  split; [rewrite E; reflexivity |].
  split; [apply invoke_in_order_fields |].
  split; [apply Close_closed_fields |].
  split; [rewrite E; reflexivity |].
  split; [apply Close_err_collects |].
  split.
  - rewrite E. unfold closing. cbn [close_err]. fold out.
    rewrite Err_None_iff. apply errors_of_nil_iff.
  - intros f s H. apply close_if_set_nil, H.
Qed.

(** C10.  [Core.Close] never calls [Close] on the version-check service,
    the orders service, the metainfo service, the garbage-collection
    service, the project-usage service, the payments chore or the
    downtime-tracking service, populated or not: they are in no call
    [Close] makes, what [Close] does and returns is the same whatever
    their [Close] would do, and subsystems that count their [Close] calls
    find the count of these seven unchanged. *)
Theorem Close_frame :
  forall (World : Type)
         (subsystem_Close : Field -> World -> World * option error)
         (peer : Core) (w : World) (f : Field),
    In f [Version; Orders_Service; Metainfo_Service;
          GarbageCollection_Service; Accounting_ProjectUsage;
          Payments_Chore; DowntimeTracking_Service] ->
    ~ In f (closed_fields (Close World subsystem_Close peer w))
    /\ (forall other_Close : Field -> World -> World * option error,
          (forall g w', g <> f -> other_Close g w' = subsystem_Close g w') ->
          Close World other_Close peer w = Close World subsystem_Close peer w)
    /\ (forall counts : Counting,
          close_world (Close Counting counting_Close peer counts) f
          = counts f).
Proof.
  intros World subsystem_Close peer w f Hf.
  pose proof (never_closed_not_in_Close_order peer f Hf) as Hnot.
  split; [| split].
  - rewrite Close_closed_fields. exact Hnot.
  - intros other_Close Hsame. rewrite !Close_closing. unfold closing.
    rewrite (invoke_in_order_ext World other_Close subsystem_Close
               (filter (populated peer) Close_order)); [reflexivity |].
    intros g w' Hg. apply Hsame. intros ->. apply Hnot, Hg.
  - intros counts. rewrite Close_closing. unfold closing.
    cbn [close_world]. apply invoke_counting_untouched, Hnot.
Qed.

(** C1, as the code has it.  [Core.Close] only ever calls [Close] on a
    populated slot, so it can be called on any struct, partially built or
    closed before.  It keeps no record of having run: a second call calls
    [Close] again on exactly the subsystems the first call closed, in the
    same order, starting from the world the first call left (subsystems
    that record their calls record the sequence twice), and returns the
    combination of the errors of those second calls, nil exactly when each
    of them returns nil. *)
Theorem Close_twice :
  forall (World : Type)
         (subsystem_Close : Field -> World -> World * option error)
         (peer : Core) (w : World),
    let fields := filter (populated peer) Close_order in
    let r1 := Close World subsystem_Close peer w in
    let r2 := Close World subsystem_Close peer (close_world r1) in
    Forall (fun f => peer f <> None) (closed_fields r1 ++ closed_fields r2)
    /\ closed_fields r1 = fields
    /\ closed_fields r2 = closed_fields r1
    /\ close_err r2 = Err (errors_of (close_calls r2))
    /\ (close_err r2 = None <-> all_nil (close_calls r2) = true)
    /\ r1 = closing subsystem_Close fields w
    /\ r2 = closing subsystem_Close fields
              (fst (invoke_in_order subsystem_Close fields w))
    /\ (forall received : list Field,
          close_world
            (Close (list Field) recording_Close peer
               (close_world
                  (Close (list Field) recording_Close peer received)))
          = received ++ fields ++ fields).
Proof.
  intros World subsystem_Close peer w fields r1 r2. subst r1 r2.
  rewrite !Close_closed_fields.
  split; [apply Forall_app; split; apply filter_populated_Forall |].
  split; [reflexivity |].
  split; [reflexivity |].
  split; [apply Close_err_collects |].
  split; [apply Close_err_None_iff |].
  split; [apply Close_closing |].
  split.
  - rewrite (Close_closing World subsystem_Close peer w).
    apply Close_closing.
  - intros received. rewrite !Close_closing. unfold closing.
    cbn [close_world]. rewrite !invoke_recording, <- app_assoc.
    reflexivity.
Qed.

(** C1 fails as stated.  On the struct [New] returns for the default
    configuration, subsystems that count their [Close] calls count two for
    each of the twelve populated slots after the second [Core.Close]; and
    where a subsystem reports its second [Close], the second [Core.Close]
    returns those twelve errors.  The same on the partly built struct
    [Close] is called on when the audit worker cannot be built. *)
Lemma Close_twice_counterexample :
  (let peer := built_peer default_Config in
   let r1 := Close Counting counting_Close peer no_calls in
   let r2 := Close Counting counting_Close peer (close_world r1) in
   new_peer (New Counting counting_Close (good_Inputs default_Config)
               no_calls) = Some peer
   /\ map (close_world r1) Close_order = [1; 1; 0; 1; 1; 1; 1; 1; 1; 1; 1; 1; 1]
   /\ map (close_world r2) Close_order = [2; 2; 0; 2; 2; 2; 2; 2; 2; 2; 2; 2; 2])
  /\
  (let peer := built_peer default_Config in
   let r1 := Close Counting strict_Close peer no_calls in
   let r2 := Close Counting strict_Close peer (close_world r1) in
   close_err r1 = None
   /\ close_err r2 = Some (Combined (repeat (Failure "already closed") 12)))
  /\
  (let failed := New Counting strict_Close bad_worker_Inputs no_calls in
   let r2 := Close Counting strict_Close (new_built failed)
               (new_world failed) in
   new_err failed = Some (Failure "audit: bad config")
   /\ close_err r2 = Some (Combined (repeat (Failure "already closed") 5))
   /\ close_world r2 Metainfo_Loop = 2).
Proof.
  vm_compute. repeat split.
Qed.

(** ** [New] *)

Lemma Combine_step_error (e : error) (c : option error) :
  Combine [Some e; c] <> None.
Proof.
  destruct c; discriminate.
Qed.

Ltac destruct_inputs i :=
  destruct i as [[z pr] [prov ge] tls wk];
  destruct tls as [tls_err |]; destruct pr as [proto_err |];
  destruct wk as [| worker_returned worker_err].

Section NewFacts.

Variable World : Type.
Variable subsystem_Close : Field -> World -> World * option error.

Let New' := New World subsystem_Close.
Let Close' := Close World subsystem_Close.

(** When a step fails, [New] returns through [fail] with the error of
    that step and the struct as built so far. *)
Lemma New_failing (i : Inputs) (w : World) (e : error) :
  failing_step i = Some e ->
  New' i w = fail World subsystem_Close (new_built (New' i w)) e w
               (new_log (New' i w)).
Proof.
  intros H. unfold New', New, failing_step in *.
  destruct (tlsopts_NewOptions i);
    [inversion H; subst; reflexivity |].
  destruct (Proto (versionInfo i));
    [inversion H; subst; reflexivity |].
  destruct (audit_NewWorker i); [discriminate H |].
  inversion H; subst; reflexivity.
Qed.

(** When no step fails, [New] returns the finished struct, a nil error,
    and has not called [Close]. *)
Lemma New_succeeding (i : Inputs) (w : World) :
  failing_step i = None ->
  new_peer (New' i w) = Some (new_built (New' i w))
  /\ new_err (New' i w) = None
  /\ new_closed (New' i w) = None
  /\ new_world (New' i w) = w.
Proof.
  intros H. unfold New', New, failing_step in *.
  destruct (tlsopts_NewOptions i); [discriminate H |].
  destruct (Proto (versionInfo i)); [discriminate H |].
  destruct (audit_NewWorker i); [| discriminate H].
  repeat split.
Qed.

Lemma New_peer_inv (i : Inputs) (w : World) (peer : Core) :
  new_peer (New' i w) = Some peer ->
  failing_step i = None /\ peer = new_built (New' i w).
Proof.
  intros H.
  destruct (failing_step i) as [e |] eqn:Hstep.
  - rewrite (New_failing i w e Hstep) in H. discriminate H.
  - destruct (New_succeeding i w Hstep) as [Hp _].
    rewrite Hp in H. inversion H. auto.
Qed.

(** The struct [New] returns is, field by field, the one built for the
    canonical configuration. *)
Lemma New_built_canonical (i : Inputs) (w : World) (f : Field) :
  failing_step i = None ->
  new_built (New' i w) f = built_peer (canonical_Config (config i)) f.
Proof.
  intros Hstep.
  unfold New', New, setup_payments, canonical_Config.
  destruct (String.eqb (Payments_Provider (config i)) "stripecoinpayments");
    destruct_inputs i; vm_compute in Hstep; try discriminate Hstep;
    destruct ge; destruct f; vm_compute; reflexivity.
Qed.

Lemma New_peer_canonical (i : Inputs) (w : World) (peer : Core) :
  new_peer (New' i w) = Some peer ->
  forall f, peer f = built_peer (canonical_Config (config i)) f.
Proof.
  intros H f. apply New_peer_inv in H. destruct H as [Hstep ->].
  apply New_built_canonical, Hstep.
Qed.

(** The log of a successful [New] ends with the graceful-exit line exactly
    when graceful exit is disabled. *)
Lemma New_log_disabled (i : Inputs) (w : World) :
  failing_step i = None ->
  GracefulExit_Enabled (config i) = false ->
  In {| logger := "gracefulexit"; level := Info; message := "disabled" |}
     (new_log (New' i w)).
Proof.
  intros Hstep Hge.
  unfold New', New, failing_step in *. rewrite Hge.
  destruct (tlsopts_NewOptions i); [discriminate Hstep |].
  destruct (Proto (versionInfo i)); [discriminate Hstep |].
  destruct (audit_NewWorker i); [| discriminate Hstep].
  cbn [new_log setup_graceful_exit snd].
  apply in_or_app. right. left. reflexivity.
Qed.

End NewFacts.

Ltac canonical_cases c :=
  unfold canonical_Config in *;
  destruct c as [prov ge];
  simpl Payments_Provider in *; simpl GracefulExit_Enabled in *;
  destruct (String.eqb prov "stripecoinpayments") eqn:Hprov;
  destruct ge.

(** C2, as the code has it.  If a step of [New] fails (TLS options,
    version proto, audit worker), [New] returns a nil struct and a non-nil
    error, the combination of the step's error with the error of
    [peer.Close()] on the struct as built so far; that one [Close] call has
    called [Close] exactly once, in [Close]'s order, on every slot
    populated so far that [Core.Close] handles ([closed_on_failure]), and
    on nothing else: the world [New] leaves is the one these calls leave,
    and subsystems that count their [Close] calls find the count of every
    other field unchanged. *)
Theorem New_failure :
  forall (World : Type)
         (subsystem_Close : Field -> World -> World * option error)
         (i : Inputs) (w : World) (e : error),
    failing_step i = Some e ->
    let r := New World subsystem_Close i w in
    let c := Close World subsystem_Close (new_built r) w in
    new_peer r = None
    /\ new_closed r = Some c
    /\ new_err r = Combine [Some e; close_err c]
    /\ new_err r <> None
    /\ new_world r = close_world c
    /\ closed_fields c = filter (populated (new_built r)) Close_order
    /\ closed_fields c = closed_on_failure i
    /\ NoDup (closed_fields c)
    /\ c = closing subsystem_Close (closed_on_failure i) w
    /\ new_world r
       = fst (invoke_in_order subsystem_Close (closed_on_failure i) w)
    /\ new_err r
       = Combine
           [Some e;
            Err (errors_of
                   (snd (invoke_in_order subsystem_Close
                           (closed_on_failure i) w)))]
    /\ (forall (counts : Counting) (f : Field),
          ~ In f (closed_on_failure i) ->
          new_world (New Counting counting_Close i counts) f = counts f).
Proof.
  intros World subsystem_Close i w e Hstep r c.
  pose proof (New_failing World subsystem_Close i w e Hstep) as E.
  fold r in E. unfold fail in E. fold c in E.
  assert (Hc : closed_fields c = filter (populated (new_built r)) Close_order)
    by apply Close_closed_fields.
  assert (Hlist : filter (populated (new_built r)) Close_order
                  = closed_on_failure i).
  { subst r c. clear E Hc.
    unfold New, failing_step, closed_on_failure in *.
    destruct (tlsopts_NewOptions i); [reflexivity |].
    destruct (Proto (versionInfo i)); [reflexivity |].
    destruct (audit_NewWorker i) as [| worker_returned err];
      [discriminate Hstep |].
    destruct worker_returned; vm_compute; reflexivity. }
  assert (Hpin : c = closing subsystem_Close (closed_on_failure i) w).
  { subst c. rewrite Close_closing, Hlist. reflexivity. }
  split; [rewrite E; reflexivity |].
  split; [rewrite E; reflexivity |].
  split; [rewrite E; reflexivity |].
  split; [rewrite E; apply Combine_step_error |].
  split; [rewrite E; reflexivity |].
  split; [exact Hc |].
  split; [rewrite Hc; exact Hlist |].
  split; [rewrite Hc; apply NoDup_filter, NoDup_Close_order |].
  split; [exact Hpin |].
  split; [rewrite E; cbn [new_world]; rewrite Hpin; reflexivity |].
  split; [rewrite E; cbn [new_err]; rewrite Hpin; reflexivity |].
  intros counts f Hnot.
  pose proof (New_failing Counting counting_Close i counts e Hstep) as E'.
  rewrite E'. unfold fail. cbn [new_world].
  rewrite Close_closing. unfold closing. cbn [close_world].
  apply invoke_counting_untouched.
  assert (Hlist' :
    filter (populated (new_built (New Counting counting_Close i counts)))
      Close_order = closed_on_failure i).
  { clear - Hstep.
    unfold New, failing_step, closed_on_failure in *.
    destruct (tlsopts_NewOptions i); [reflexivity |].
    destruct (Proto (versionInfo i)); [reflexivity |].
    destruct (audit_NewWorker i) as [| worker_returned err];
      [discriminate Hstep |].
    destruct worker_returned; vm_compute; reflexivity. }
  rewrite Hlist'. exact Hnot.
Qed.

(** C2 fails as stated: when the TLS options are rejected the version
    service has been built and [Close] is called on no subsystem at all;
    when the audit worker cannot be built, the orders and metainfo
    services have been built too, and only the repairer, the checker, the
    overlay and contact services and the metainfo loop are closed, once
    each.  The counts are those of the subsystems themselves. *)
Lemma New_failure_counterexample :
  (let r := New Counting counting_Close bad_tls_Inputs no_calls in
   new_peer r = None
   /\ populated (new_built r) Version = true
   /\ option_map closed_fields (new_closed r) = Some []
   /\ new_world r Version = 0)
  /\
  (let r := New Counting counting_Close bad_worker_Inputs no_calls in
   new_peer r = None
   /\ populated (new_built r) Version = true
   /\ populated (new_built r) Orders_Service = true
   /\ populated (new_built r) Metainfo_Service = true
   /\ option_map closed_fields (new_closed r) =
      Some [Repair_Repairer; Repair_Checker; Overlay_Service;
            Contact_Service; Metainfo_Loop]
   /\ map (new_world r)
        [Repair_Repairer; Repair_Checker; Overlay_Service;
         Contact_Service; Metainfo_Loop] = [1; 1; 1; 1; 1]
   /\ new_world r Version = 0
   /\ new_world r Orders_Service = 0
   /\ new_world r Metainfo_Service = 0).
Proof.
  vm_compute. repeat split.
Qed.

(** C3, what the code does.  In every struct [New] returns, the contact
    service was constructed with a nil overlay service, although the
    overlay service slot of the struct is populated: the contact step
    reads [peer.Overlay.Service] one step before it is assigned.  Every
    other constructor call read populated fields only. *)
Theorem New_contact_service_gets_nil_overlay :
  forall (World : Type)
         (subsystem_Close : Field -> World -> World * option error)
         (i : Inputs) (w : World) (peer : Core),
    new_peer (New World subsystem_Close i w) = Some peer ->
    (exists inputs,
        peer Contact_Service = Some (Built "contact.NewService" inputs)
        /\ In (PeerField Overlay_Service, None) inputs)
    /\ peer Overlay_Service <> None
    /\ (forall (f : Field) (h : Handle),
          peer f = Some h ->
          nil_reads h =
          if Field_beq f Contact_Service then [Overlay_Service] else []).
Proof.
  intros World subsystem_Close i w peer H.
  pose proof (New_peer_canonical World subsystem_Close i w peer H) as Hcan.
  split; [| split].
  - rewrite Hcan. canonical_cases (config i);
      (eexists; split; [vm_compute; reflexivity | simpl; tauto]).
  - rewrite Hcan. canonical_cases (config i); vm_compute; discriminate.
  - intros f h Hf. rewrite Hcan in Hf.
    canonical_cases (config i); destruct f; vm_compute in Hf;
      inversion Hf; reflexivity.
Qed.

(** ** The error group *)

Lemma Field_beq_true (f g : Field) : Field_beq f g = true <-> f = g.
Proof.
  split; [apply internal_Field_dec_bl | apply internal_Field_dec_lb].
Qed.

Lemma is_pending_In (f : Field) (group : errgroup) :
  is_pending f group = true <-> In f (pending group).
Proof.
  unfold is_pending. rewrite existsb_exists. split.
  - intros [g [Hin Hg]]. apply Field_beq_true in Hg. subst g. exact Hin.
  - intros Hin. exists f. split; [exact Hin | apply Field_beq_true; reflexivity].
Qed.

Lemma remove_first_Permutation (f : Field) (l : list Field) :
  In f l -> Permutation l (f :: remove_first f l).
Proof.
  induction l as [| g l IH]; simpl; [tauto |].
  intros Hin. destruct (Field_beq f g) eqn:E.
  - apply Field_beq_true in E. subst g. reflexivity.
  - destruct Hin as [-> | Hin].
    + assert (Field_beq f f = true) by (apply Field_beq_true; reflexivity).
      congruence.
    + rewrite perm_swap. constructor. apply IH, Hin.
Qed.

Lemma pending_task_returns (group : errgroup) (f : Field)
  (result : option error) :
  pending (task_returns group f result) = remove_first f (pending group).
Proof.
  unfold task_returns.
  destruct (IgnoreCanceled result), (group_err group); reflexivity.
Qed.

Lemma group_err_task_returns (group : errgroup) (f : Field)
  (result : option error) :
  group_err (task_returns group f result) =
  match group_err group with
  | Some e => Some e
  | None => IgnoreCanceled result
  end.
Proof.
  unfold task_returns.
  destruct (IgnoreCanceled result), (group_err group); reflexivity.
Qed.



(** The error the group holds after a schedule: the one it held, else the
    first failure of the schedule. *)
Lemma steps_group_err (schedule : list Event) :
  forall group group',
    steps group schedule = Some group' ->
    group_err group' =
    match group_err group with
    | Some e => Some e
    | None => first_failure schedule
    end.
Proof.
  induction schedule as [| ev rest IH]; simpl; intros group group' H.
  - inversion H; subst. destruct (group_err group'); reflexivity.
  - destruct (step group ev) as [g1 |] eqn:E; [| discriminate].
    rewrite (IH g1 group' H). unfold step in E.
    destruct ev as [f result |].
    + destruct (is_pending f group); [| discriminate].
      inversion E; subst g1. rewrite group_err_task_returns.
      destruct (group_err group); [reflexivity |].
      destruct (IgnoreCanceled result); reflexivity.
    + inversion E; subst g1. reflexivity.
Qed.

(** The tasks that return in a schedule were running, and the others
    still are. *)
Lemma steps_pending (schedule : list Event) :
  forall group group',
    steps group schedule = Some group' ->
    Permutation (pending group) (returned schedule ++ pending group').
Proof.
  induction schedule as [| ev rest IH]; simpl; intros group group' H.
  - inversion H; subst. reflexivity.
  - destruct (step group ev) as [g1 |] eqn:E; [| discriminate].
    specialize (IH g1 group' H). unfold step in E.
    destruct ev as [f result |].
    + destruct (is_pending f group) eqn:P; [| discriminate].
      inversion E; subst g1. rewrite pending_task_returns in IH.
      apply is_pending_In in P. simpl.
      rewrite (remove_first_Permutation f (pending group) P).
      constructor. exact IH.
    + inversion E; subst g1. exact IH.
Qed.

(** Any schedule in which running tasks return can be executed. *)
Lemma steps_exist (schedule : list Event) :
  forall (group : errgroup) (rest : list Field),
    Permutation (pending group) (returned schedule ++ rest) ->
    exists group',
      steps group schedule = Some group'
      /\ Permutation (pending group') rest.
Proof.
  induction schedule as [| ev sched IH]; simpl; intros group rest H.
  - exists group. split; [reflexivity | exact H].
  - destruct ev as [f result |]; simpl.
    + assert (P : In f (pending group)).
      { apply (Permutation_in f (Permutation_sym H)). left. reflexivity. }
      pose proof P as P'. apply is_pending_In in P'. rewrite P'.
      apply IH. rewrite pending_task_returns.
      apply (Permutation_cons_inv (a := f)).
      rewrite <- (remove_first_Permutation f (pending group) P).
      exact H.
    + apply IH. exact H.
Qed.

(** [Wait] returns exactly for the schedules in which the started tasks,
    and no others, have all returned. *)
Lemma Wait_returns_iff (group : errgroup) (schedule : list Event) :
  Wait group schedule <> None <->
  Permutation (returned schedule) (pending group).
Proof.
  unfold Wait. split.
  - destruct (steps group schedule) as [g' |] eqn:E; [| congruence].
    apply steps_pending in E.
    destruct (pending g'); [| congruence].
    intros _. rewrite app_nil_r in E. symmetry. exact E.
  - intros H.
    destruct (steps_exist schedule group []) as [g' [E P]].
    { rewrite app_nil_r. symmetry. exact H. }
    rewrite E. apply Permutation_sym, Permutation_nil in P.
    rewrite P. discriminate.
Qed.

(** What [Wait] returns is the first failure of the schedule. *)
Lemma Wait_result (group : errgroup) (schedule : list Event)
  (res : option error) :
  group_err group = None ->
  Wait group schedule = Some res ->
  res = first_failure schedule.
Proof.
  unfold Wait. intros H0 H.
  destruct (steps group schedule) as [g' |] eqn:E; [| discriminate].
  destruct (pending g'); [| discriminate].
  inversion H; subst res.
  rewrite (steps_group_err schedule group g' E), H0. reflexivity.
Qed.

Lemma first_failure_quiet (schedule : list Event) :
  forallb nil_or_canceled schedule = true ->
  first_failure schedule = None.
Proof.
  induction schedule as [| ev rest IH]; simpl; [reflexivity |].
  intros H. apply andb_prop in H. destruct H as [Hev Hrest].
  destruct ev as [f [[| msg | errors] |] |]; simpl in *;
    try discriminate; auto.
Qed.

Lemma Run_group_clean (peer : Core) :
  group_err (Run_group peer) = None
  /\ ctx_canceled (Run_group peer) = false.
Proof.
  unfold Run_group.
  destruct (populated peer GracefulExit_Chore),
           (populated peer Payments_Chore); split; reflexivity.
Qed.

(** ** [Core.Run] on a struct returned by [New] *)

Lemma Run_tasks_ext (p q : Core) :
  (forall f, populated p f = populated q f) -> Run_tasks p = Run_tasks q.
Proof.
  intros H. unfold Run_tasks, Run_group. rewrite !H. reflexivity.
Qed.

Lemma populated_canonical (World : Type)
  (subsystem_Close : Field -> World -> World * option error)
  (i : Inputs) (w : World) (peer : Core) :
  new_peer (New World subsystem_Close i w) = Some peer ->
  forall f,
    populated peer f = populated (built_peer (canonical_Config (config i))) f.
Proof.
  intros H f. unfold populated.
  rewrite (New_peer_canonical World subsystem_Close i w peer H f).
  reflexivity.
Qed.

Lemma closed_fields_canonical (World : Type)
  (subsystem_Close : Field -> World -> World * option error)
  (i : Inputs) (w w' : World) (peer : Core) :
  new_peer (New World subsystem_Close i w) = Some peer ->
  closed_fields (Close World subsystem_Close peer w') =
  filter (populated (built_peer (canonical_Config (config i)))) Close_order.
Proof.
  intros H. rewrite Close_closed_fields.
  apply filter_ext. intros f. eapply populated_canonical, H.
Qed.

Lemma NoDup_Run_tasks (peer : Core) : NoDup (Run_tasks peer).
Proof.
  unfold Run_tasks, Run_group.
  destruct (populated peer GracefulExit_Chore),
           (populated peer Payments_Chore); simpl;
    repeat (constructor; [simpl; intuition discriminate |]); constructor.
Qed.


Lemma Run_quiet (peer : Core) : Run peer (quiet_schedule peer) = Some None.
Proof.
  unfold Run, quiet_schedule, Run_tasks, Run_group.
  destruct (populated peer GracefulExit_Chore),
           (populated peer Payments_Chore); reflexivity.
Qed.

(** C4.  A task whose [Run] returns [context.Canceled] is treated exactly
    as one that returns nil; and if every started task returns, each with
    nil or [context.Canceled], [Core.Run] returns nil. *)
Theorem Run_ignores_canceled :
  forall (peer : Core) (schedule : list Event),
    Permutation (returned schedule) (Run_tasks peer) ->
    forallb nil_or_canceled schedule = true ->
    Run peer schedule = Some None
    /\ (forall (group : errgroup) (f : Field),
          task_returns group f (Some ContextCanceled) =
          task_returns group f None).
Proof.
  intros peer schedule Hperm Hquiet. split; [| reflexivity].
  unfold Run.
  destruct (Wait (Run_group peer) schedule) as [res |] eqn:E.
  - apply Wait_result in E; [| apply Run_group_clean].
    rewrite E, (first_failure_quiet schedule Hquiet). reflexivity.
  - exfalso. revert E. apply Wait_returns_iff. exact Hperm.
Qed.





(** ** The configuration-dependent steps *)

Lemma failing_step_with_GracefulExit (b : bool) (i : Inputs) :
  failing_step (with_GracefulExit b i) = failing_step i.
Proof. reflexivity. Qed.

(** C8.  When [config.GracefulExit.Enabled] is false, [New] leaves the
    graceful-exit chore slot nil and writes the "disabled" line to the
    log.  [Run] then starts no task for graceful exit and [Close] makes no
    call for it: [Close] calls the other twelve subsystems in turn, where
    with graceful exit enabled it calls all thirteen; both do exactly what
    they do when it is enabled, less that one task and that one call; and
    the nil slot gives no error: [Run] returns nil when the started tasks
    return nil, [Close] returns nil when the calls it makes return nil. *)
Theorem GracefulExit_disabled :
  forall (World : Type)
         (subsystem_Close : Field -> World -> World * option error)
         (i : Inputs) (w : World) (peer : Core),
    GracefulExit_Enabled (config i) = false ->
    new_peer (New World subsystem_Close i w) = Some peer ->
    peer GracefulExit_Chore = None
    /\ In {| logger := "gracefulexit"; level := Info; message := "disabled" |}
          (new_log (New World subsystem_Close i w))
    /\ ~ In GracefulExit_Chore (Run_tasks peer)
    /\ Run peer (quiet_schedule peer) = Some None
    /\ (forall w' : World,
          let c := Close World subsystem_Close peer w' in
          ~ In GracefulExit_Chore (closed_fields c)
          /\ (all_nil (close_calls c) = true -> close_err c = None)
          /\ c = closing subsystem_Close
                   (remove_first GracefulExit_Chore Close_order) w')
    /\ exists peer' : Core,
         new_peer (New World subsystem_Close (with_GracefulExit true i) w)
         = Some peer'
         /\ peer' GracefulExit_Chore <> None
         /\ Run_tasks peer = remove_first GracefulExit_Chore (Run_tasks peer')
         /\ List.length (Run_tasks peer') = S (List.length (Run_tasks peer))
         /\ forall w1 w2 : World,
              let c := Close World subsystem_Close peer w1 in
              let c' := Close World subsystem_Close peer' w2 in
              closed_fields c =
              remove_first GracefulExit_Chore (closed_fields c')
              /\ List.length (closed_fields c') = S (List.length (closed_fields c))
              /\ c' = closing subsystem_Close Close_order w2.
Proof.
  intros World subsystem_Close i w peer Hge H.
  pose proof (New_peer_canonical World subsystem_Close i w peer H) as Hcan.
  pose proof (populated_canonical World subsystem_Close i w peer H) as Hpop.
  destruct (New_peer_inv World subsystem_Close i w peer H) as [Hstep _].
  assert (Hstep' : failing_step (with_GracefulExit true i) = None)
    by (rewrite failing_step_with_GracefulExit; exact Hstep).
  destruct (New_succeeding World subsystem_Close
              (with_GracefulExit true i) w Hstep') as [H' _].
  pose proof (populated_canonical World subsystem_Close
                (with_GracefulExit true i) w _ H') as Hpop'.
  pose proof (New_peer_canonical World subsystem_Close
                (with_GracefulExit true i) w _ H') as Hcan'.
  split.
  { rewrite Hcan. clear - Hge. canonical_cases (config i);
      try discriminate Hge; reflexivity. }
  split.
  { apply New_log_disabled; assumption. }
  split.
  { rewrite (Run_tasks_ext peer _ Hpop). clear - Hge.
    canonical_cases (config i); try discriminate Hge;
      vm_compute; intuition discriminate. }
  split.
  { apply Run_quiet. }
  split.
  { intros w' c. subst c. split.
    - rewrite (closed_fields_canonical World subsystem_Close i w w' peer H).
      clear - Hge. canonical_cases (config i); try discriminate Hge;
        vm_compute; intuition discriminate.
    - split; [apply Close_err_None_iff |].
      rewrite Close_closing, (filter_ext _ _ Hpop). clear - Hge.
      canonical_cases (config i); try discriminate Hge; reflexivity. }
  exists (new_built (New World subsystem_Close (with_GracefulExit true i) w)).
  split; [exact H' |].
  split.
  { rewrite Hcan'. clear - Hge. unfold with_GracefulExit.
    simpl config. unfold canonical_Config.
    simpl Payments_Provider. simpl GracefulExit_Enabled.
    destruct (String.eqb (Payments_Provider (config i)) "stripecoinpayments");
      vm_compute; discriminate. }
  split.
  { rewrite (Run_tasks_ext peer _ Hpop), (Run_tasks_ext _ _ Hpop').
    clear - Hge. unfold with_GracefulExit. simpl config.
    canonical_cases (config i); try discriminate Hge;
      vm_compute; reflexivity. }
  split.
  { rewrite (Run_tasks_ext peer _ Hpop), (Run_tasks_ext _ _ Hpop').
    clear - Hge. unfold with_GracefulExit. simpl config.
    canonical_cases (config i); try discriminate Hge;
      vm_compute; reflexivity. }
  intros w1 w2 c c'. subst c c'.
  rewrite (closed_fields_canonical World subsystem_Close i w w1 peer H).
  rewrite (closed_fields_canonical World subsystem_Close
             (with_GracefulExit true i) w w2 _ H').
  split; [| split].
  - clear - Hge. unfold with_GracefulExit. simpl config.
    canonical_cases (config i); try discriminate Hge;
      vm_compute; reflexivity.
  - clear - Hge. unfold with_GracefulExit. simpl config.
    canonical_cases (config i); try discriminate Hge;
      vm_compute; reflexivity.
  - rewrite Close_closing, (filter_ext _ _ Hpop').
    clear - Hge. unfold with_GracefulExit. simpl config.
    canonical_cases (config i); try discriminate Hge; reflexivity.
Qed.

(** C9.  [New] selects the billing implementation by
    [config.Payments.Provider].  For any value other than
    "stripecoinpayments" the accounts slot holds the mock accounts, the
    payments chore slot stays nil and [Run] starts no task for it.  For
    "stripecoinpayments" a payments service is built, the accounts slot
    holds that service's accounts, the chore slot holds a chore built on
    the same service, and [Run] starts a task for the chore. *)
Theorem Payments_provider_selection :
  forall (World : Type)
         (subsystem_Close : Field -> World -> World * option error)
         (i : Inputs) (w : World) (peer : Core),
    new_peer (New World subsystem_Close i w) = Some peer ->
    (Payments_Provider (config i) <> "stripecoinpayments" ->
     peer Payments_Accounts = Some (Built "mockpayments.Accounts" [])
     /\ peer Payments_Chore = None
     /\ ~ In Payments_Chore (Run_tasks peer))
    /\
    (Payments_Provider (config i) = "stripecoinpayments" ->
     exists (service : Handle) (inputs inputs' : list (Source * option Handle)),
       service = Built "stripecoinpayments.NewService" inputs
       /\ peer Payments_Accounts =
          Some (Built "stripecoinpayments.Service.Accounts"
                  [(LocalVar "service", Some service)])
       /\ peer Payments_Chore =
          Some (Built "stripecoinpayments.NewChore" inputs')
       /\ In (LocalVar "service", Some service) inputs'
       /\ In Payments_Chore (Run_tasks peer)).
Proof.
  intros World subsystem_Close i w peer H.
  pose proof (New_peer_canonical World subsystem_Close i w peer H) as Hcan.
  pose proof (populated_canonical World subsystem_Close i w peer H) as Hpop.
  rewrite (Run_tasks_ext peer _ Hpop), !Hcan. clear.
  split; intros Hprovider.
  - apply String.eqb_neq in Hprovider.
    unfold canonical_Config. rewrite Hprovider.
    destruct (GracefulExit_Enabled (config i));
      vm_compute; intuition discriminate.
  - apply String.eqb_eq in Hprovider.
    unfold canonical_Config. rewrite Hprovider.
    destruct (GracefulExit_Enabled (config i));
      (do 3 eexists; vm_compute;
       split; [reflexivity |];
       split; [reflexivity |];
       split; [reflexivity |];
       split; tauto).
Qed.

(** ** The properties on concrete inputs *)

Example built_peer_is_returned (c : Config) :
  new_peer (New Counting counting_Close (good_Inputs c) no_calls)
  = Some (built_peer c).
Proof.
  destruct (New_succeeding Counting counting_Close (good_Inputs c) no_calls
              eq_refl) as [H _].
  unfold built_peer. rewrite H. reflexivity.
Qed.

Example Close_when_every_Close_fails :
  let r := Close Counting failing_Close (built_peer stripe_Config) no_calls in
  closed_fields r = Close_order
  /\ close_err r = Some (Combined (repeat (Failure "close failed") 13)).
Proof.
  vm_compute. split; reflexivity.
Qed.

Example Close_zero_Core :
  let r := Close Counting failing_Close zero_Core no_calls in
  close_calls r = [] /\ close_err r = None.
Proof.
  vm_compute. split; reflexivity.
Qed.

Example Run_first_failure_wins :
  Run (built_peer stripe_Config) (failing_schedule (built_peer stripe_Config))
  = Some (Some (Failure "checker: queue unavailable")).
Proof.
  vm_compute. reflexivity.
Qed.

Example Run_waits_for_every_task :
  Run (built_peer stripe_Config)
    [Returns Repair_Checker (Some (Failure "checker: queue unavailable"))]
  = None.
Proof.
  vm_compute. reflexivity.
Qed.

Example New_failure_combines_errors :
  new_err (New Counting failing_Close bad_worker_Inputs no_calls)
  = Some (Combined [Failure "audit: bad config";
                    Combined (repeat (Failure "close failed") 5)]).
Proof.
  vm_compute. reflexivity.
Qed.

Lemma Close_aggregates_witness :
  let r := Close Counting failing_Close (built_peer stripe_Config) no_calls in
  map (close_world r) Close_order = repeat 1 13
  /\ close_err r = Some (Combined (repeat (Failure "close failed") 13))
  /\ close_if_set Counting failing_Close zero_Core Metainfo_Loop
       (mkCloseState no_calls [] [])
     = mkCloseState no_calls [] [].
Proof.
  destruct (Close_aggregates Counting failing_Close
              (built_peer stripe_Config) no_calls)
    as (H1 & _ & _ & _ & H5 & _).
  destruct (Close_aggregates Counting failing_Close zero_Core no_calls)
    as (_ & _ & _ & _ & _ & _ & _ & H8).
  cbv zeta. rewrite H1, H5.
  split; [vm_compute; reflexivity |].
  split; [vm_compute; reflexivity |].
  apply H8. reflexivity.
Defined.

Lemma Close_frame_witness :
  populated (built_peer stripe_Config) Payments_Chore = true
  /\ ~ In Payments_Chore
       (closed_fields
          (Close Counting counting_Close (built_peer stripe_Config) no_calls))
  /\ close_world
       (Close Counting counting_Close (built_peer stripe_Config) no_calls)
       Payments_Chore = 0.
Proof.
  split; [reflexivity |].
  destruct (Close_frame Counting counting_Close (built_peer stripe_Config)
              no_calls Payments_Chore) as (H1 & _ & H3).
  - simpl. tauto.
  - split; [exact H1 | apply H3].
Defined.

Lemma Close_twice_witness :
  let peer := built_peer default_Config in
  let r1 := Close Counting strict_Close peer no_calls in
  let r2 := Close Counting strict_Close peer (close_world r1) in
  closed_fields r2 = closed_fields r1
  /\ close_err r2 = Some (Combined (repeat (Failure "already closed") 12)).
Proof.
  destruct (Close_twice Counting strict_Close (built_peer default_Config)
              no_calls)
    as (_ & _ & H3 & _ & _ & _ & H7 & _).
  cbv zeta. split; [exact H3 |].
  cbv zeta in H7. rewrite H7. vm_compute. reflexivity.
Defined.

Lemma New_failure_witness :
  failing_step bad_worker_Inputs = Some (Failure "audit: bad config")
  /\ new_peer (New Counting failing_Close bad_worker_Inputs no_calls) = None
  /\ new_err (New Counting failing_Close bad_worker_Inputs no_calls) <> None
  /\ map (new_world (New Counting failing_Close bad_worker_Inputs no_calls))
       [Version; Repair_Repairer; Metainfo_Loop] = [0; 1; 1].
Proof.
  split; [reflexivity |].
  destruct (New_failure Counting failing_Close bad_worker_Inputs no_calls
              (Failure "audit: bad config") eq_refl)
    as (H1 & _ & _ & H4 & _ & _ & _ & _ & _ & H10 & _).
  split; [exact H1 |]. split; [exact H4 |].
  cbv zeta in H10. rewrite H10. vm_compute. reflexivity.
Defined.

Lemma New_contact_service_gets_nil_overlay_witness :
  new_peer (New Counting counting_Close (good_Inputs default_Config) no_calls)
  = Some (built_peer default_Config)
  /\ built_peer default_Config Overlay_Service <> None
  /\ exists inputs,
       built_peer default_Config Contact_Service
       = Some (Built "contact.NewService" inputs)
       /\ In (PeerField Overlay_Service, None) inputs.
Proof.
  split; [reflexivity |].
  destruct (New_contact_service_gets_nil_overlay Counting counting_Close
              (good_Inputs default_Config) no_calls
              (built_peer default_Config) eq_refl)
    as (H1 & H2 & _).
  split; [exact H2 | exact H1].
Defined.

Lemma Run_ignores_canceled_witness :
  Run (built_peer default_Config)
      (canceled_schedule (built_peer default_Config))
  = Some None.
Proof.
  apply (Run_ignores_canceled (built_peer default_Config)
           (canceled_schedule (built_peer default_Config))).
  - vm_compute. apply Permutation_refl.
  - vm_compute. reflexivity.
Defined.


Lemma GracefulExit_disabled_witness :
  GracefulExit_Enabled (config (good_Inputs default_Config)) = false
  /\ built_peer default_Config GracefulExit_Chore = None
  /\ ~ In GracefulExit_Chore (Run_tasks (built_peer default_Config)).
Proof.
  split; [reflexivity |].
  destruct (GracefulExit_disabled Counting counting_Close
              (good_Inputs default_Config) no_calls
              (built_peer default_Config) eq_refl eq_refl)
    as (H1 & _ & H3 & _).
  split; [exact H1 | exact H3].
Defined.

Lemma Payments_provider_selection_witness :
  (Payments_Provider (config (good_Inputs default_Config))
   <> "stripecoinpayments"
   /\ built_peer default_Config Payments_Chore = None)
  /\
  (Payments_Provider (config (good_Inputs stripe_Config))
   = "stripecoinpayments"
   /\ In Payments_Chore (Run_tasks (built_peer stripe_Config))).
Proof.
  split.
  - assert (Hneq : Payments_Provider (config (good_Inputs default_Config))
                   <> "stripecoinpayments") by (simpl; discriminate).
    split; [exact Hneq |].
    destruct (Payments_provider_selection Counting counting_Close
                (good_Inputs default_Config) no_calls
                (built_peer default_Config) eq_refl) as [Hmock _].
    destruct (Hmock Hneq) as (_ & H2 & _). exact H2.
  - split; [reflexivity |].
    destruct (Payments_provider_selection Counting counting_Close
                (good_Inputs stripe_Config) no_calls
                (built_peer stripe_Config) eq_refl) as [_ Hstripe].
    destruct (Hstripe eq_refl) as (service & inputs & inputs' & H).
    destruct H as (_ & _ & _ & _ & H5). exact H5.
Defined.

(** * Further properties *)

(** ** The batch aggregator *)

Section BatchAggregatorFacts.

Import BatchAggregator.

Variable BatchItem : Type.
Variable BatchResponse : Type.
Variable Batcher : Type.
Variable Batch :
  Batcher -> list BatchItem -> Batcher * (list BatchResponse * option error).

Let Agg := Aggregator BatchItem Batcher.

Lemma issueBatchLocked_scheduled (a : Agg) :
  scheduled (fst (issueBatchLocked Batch a)) = [].
Proof.
  unfold issueBatchLocked. destruct (scheduled a) as [| x l]; simpl.
  - reflexivity.
  - destruct (Batch (batcher a) (x :: l)) as [b result]. reflexivity.
Qed.

Lemma issueBatchLocked_issued (a : Agg) :
  issued (fst (issueBatchLocked Batch a)) =
  issued a ++ match scheduled a with [] => [] | _ :: _ => [scheduled a] end.
Proof.
  unfold issueBatchLocked. destruct (scheduled a) as [| x l]; simpl.
  - rewrite app_nil_r. reflexivity.
  - destruct (Batch (batcher a) (x :: l)) as [b result]. reflexivity.
Qed.

Lemma issueBatchLocked_empty (a : Agg) :
  scheduled a = [] ->
  issueBatchLocked Batch a = (a, ([], None)).
Proof.
  intros H. unfold issueBatchLocked. rewrite H.
  destruct a as [b s i]. simpl in H. subst s. reflexivity.
Qed.

Lemma ScheduleAndFlush_fst (a : Agg) (item : BatchItem) :
  fst (ScheduleAndFlush Batch a item) =
  fst (issueBatchLocked Batch (Schedule a item)).
Proof.
  unfold ScheduleAndFlush, Schedule.
  destruct (issueBatchLocked Batch _) as [a' [resp [e |]]]; simpl;
    [reflexivity |].
  destruct resp; reflexivity.
Qed.

Lemma Flush_fst (a : Agg) :
  fst (Flush Batch a) = fst (issueBatchLocked Batch a).
Proof.
  unfold Flush. destruct (issueBatchLocked Batch a). reflexivity.
Qed.

Lemma call_conserves (a : Agg) (c : Call BatchItem) :
  List.concat (issued (call Batch a c)) ++ scheduled (call Batch a c) =
  List.concat (issued a) ++ scheduled a ++ items_of [c].
Proof.
  destruct c as [item | item |]; simpl.
  - reflexivity.
  - rewrite ScheduleAndFlush_fst, issueBatchLocked_scheduled,
      issueBatchLocked_issued, app_nil_r. simpl.
    destruct (scheduled a ++ [item]) eqn:E.
    + destruct (scheduled a); discriminate E.
    + rewrite concat_app. simpl. rewrite app_nil_r. reflexivity.
  - rewrite Flush_fst, issueBatchLocked_scheduled,
      issueBatchLocked_issued, !app_nil_r.
    destruct (scheduled a); simpl.
    + rewrite !app_nil_r. reflexivity.
    + rewrite concat_app. simpl. rewrite app_nil_r. reflexivity.
Qed.

Lemma items_of_cons (c : Call BatchItem) (cs : list (Call BatchItem)) :
  items_of (c :: cs) = items_of [c] ++ items_of cs.
Proof.
  destruct c; reflexivity.
Qed.

Lemma call_issued (a : Agg) (c : Call BatchItem) :
  exists extra,
    issued (call Batch a c) = issued a ++ extra
    /\ Forall (fun b => b <> []) extra
    /\ List.length extra <= flushes_of [c].
Proof.
  destruct c as [item | item |]; simpl.
  - exists []. rewrite app_nil_r. repeat split; auto.
  - rewrite ScheduleAndFlush_fst, issueBatchLocked_issued. simpl.
    destruct (scheduled a ++ [item]) eqn:E.
    + destruct (scheduled a); discriminate E.
    + eexists. split; [reflexivity |]. split; [| simpl; lia].
      constructor; [discriminate | constructor].
  - rewrite Flush_fst, issueBatchLocked_issued.
    destruct (scheduled a) eqn:E.
    + exists []. repeat split; auto.
    + eexists. split; [reflexivity |]. split; [| simpl; lia].
      constructor; [discriminate | constructor].
Qed.

Lemma flushes_of_cons (c : Call BatchItem) (cs : list (Call BatchItem)) :
  flushes_of (c :: cs) = flushes_of [c] + flushes_of cs.
Proof.
  destruct c; reflexivity.
Qed.

Lemma calls_issued (cs : list (Call BatchItem)) :
  forall a : Agg,
  exists extra,
    issued (calls_in_order Batch a cs) = issued a ++ extra
    /\ Forall (fun b => b <> []) extra
    /\ List.length extra <= flushes_of cs.
Proof.
  induction cs as [| c cs IH]; intros a.
  - exists []. simpl. rewrite app_nil_r. repeat split; auto.
  - unfold calls_in_order in *. simpl fold_left.
    destruct (call_issued a c) as (e1 & H1 & F1 & L1).
    destruct (IH (call Batch a c)) as (e2 & H2 & F2 & L2).
    exists (e1 ++ e2). rewrite H2, H1, app_assoc.
    split; [reflexivity |]. split.
    + apply Forall_app. split; assumption.
    + rewrite length_app, flushes_of_cons. lia.
Qed.

(** X1.  Whatever the calls and whatever the batcher answers, no item is lost,
    issued twice or reordered: the batches issued so far, one after the
    other, followed by what is still scheduled, are the items handed to
    the aggregator in the order they were handed over. *)
Theorem aggregator_conserves_items :
  forall (a : Agg) (cs : list (Call BatchItem)),
    List.concat (issued (calls_in_order Batch a cs))
    ++ scheduled (calls_in_order Batch a cs)
    = List.concat (issued a) ++ scheduled a ++ items_of cs.
Proof.
  intros a cs. revert a.
  induction cs as [| c cs IH]; intros a.
  - simpl. rewrite app_nil_r. reflexivity.
  - unfold calls_in_order in *. simpl fold_left.
    rewrite IH, app_assoc, call_conserves, (items_of_cons c cs).
    rewrite <- !app_assoc. reflexivity.
Qed.

(** X2.  Starting from a new aggregator, the batcher is never called with an
    empty batch, and is called at most once per flushing call. *)
Theorem aggregator_batches_nonempty :
  forall (b : Batcher) (cs : list (Call BatchItem)),
    Forall (fun batch => batch <> [])
      (issued (calls_in_order Batch (New b) cs))
    /\ List.length (issued (calls_in_order Batch (New b) cs))
       <= flushes_of cs.
Proof.
  intros b cs.
  destruct (calls_issued cs (New b)) as (extra & H & F & L).
  rewrite H. simpl. split; assumption.
Qed.

(** X3.  [ScheduleAndFlush] always calls the batcher exactly once, with
    everything scheduled so far followed by the new item, and leaves
    nothing scheduled.  It returns the batcher's error; or, without
    error, "missing batch responses" for no response at all and else the
    last response, however many responses there are. *)
Theorem ScheduleAndFlush_issues_one_batch :
  forall (a : Agg) (item : BatchItem),
    let batch := scheduled a ++ [item] in
    let out := Batch (batcher a) batch in
    let resp := fst (snd out) in
    ScheduleAndFlush Batch a item =
    ({| batcher := fst out;
        scheduled := [];
        issued := issued a ++ [batch] |},
     match snd (snd out) with
     | Some e => (None, Some e)
     | None =>
         match nth_error resp (List.length resp - 1) with
         | Some r => (Some r, None)
         | None => (None, Some (Failure "missing batch responses"))
         end
     end).
Proof.
  intros a item batch out resp. subst resp out.
  unfold ScheduleAndFlush, issueBatchLocked. simpl. fold batch.
  destruct batch as [| x l] eqn:E.
  - subst batch. destruct (scheduled a); discriminate E.
  - destruct (Batch (batcher a) (x :: l)) as [b [resp [e |]]]; simpl;
      [reflexivity |].
    destruct resp as [| r rest]; simpl; [reflexivity |].
    rewrite Nat.sub_0_r.
    assert (H : nth_error (r :: rest) (List.length rest)
                = Some (last rest r)).
    { clear. revert r. induction rest as [| r' rest IH]; intros r.
      - reflexivity.
      - change (nth_error (r' :: rest) (List.length rest)
                = Some (last (r' :: rest) r)).
        rewrite (IH r'). f_equal.
        destruct rest as [| r'' rest]; [reflexivity |].
        clear. revert r''. induction rest as [| x rest IH]; intros r'';
          [reflexivity |].
        change (last (x :: rest) r' = last (x :: rest) r).
        apply IH. }
    rewrite H. reflexivity.
Qed.

(** X4.  After [Flush] or [ScheduleAndFlush], whether the batcher succeeded or
    failed, nothing is scheduled: a [Flush] that follows calls no batcher
    and returns nil.  The items of a failed batch are not issued again. *)
Theorem flushed_items_are_forgotten :
  forall (a : Agg),
    (let a1 := fst (Flush Batch a) in Flush Batch a1 = (a1, None))
    /\ (forall item : BatchItem,
          let a1 := fst (ScheduleAndFlush Batch a item) in
          Flush Batch a1 = (a1, None)).
Proof.
  intros a. split.
  - intros a1. subst a1. unfold Flush at 1.
    rewrite issueBatchLocked_empty; [reflexivity |].
    rewrite Flush_fst. apply issueBatchLocked_scheduled.
  - intros item a1. subst a1. unfold Flush.
    rewrite issueBatchLocked_empty; [reflexivity |].
    rewrite ScheduleAndFlush_fst. apply issueBatchLocked_scheduled.
Qed.

Lemma fold_Schedule (items : list BatchItem) :
  forall a : Agg,
    fold_left Schedule items a =
    {| batcher := batcher a;
       scheduled := scheduled a ++ items;
       issued := issued a |}.
Proof.
  induction items as [| x items IH]; intros a.
  - simpl. rewrite app_nil_r. destruct a; reflexivity.
  - simpl. rewrite IH. simpl. rewrite <- app_assoc. reflexivity.
Qed.

(** X5.  Any number of [Schedule] calls costs no call of the batcher; the
    [Flush] after them issues all the items in one batch, in the order
    they were scheduled, and returns what the batcher returns. *)
Theorem Schedule_then_Flush_one_batch :
  forall (a : Agg) (items : list BatchItem),
    scheduled a ++ items <> [] ->
    let a1 := fold_left Schedule items a in
    let out := Batch (batcher a) (scheduled a ++ items) in
    batcher a1 = batcher a
    /\ issued a1 = issued a
    /\ Flush Batch a1 =
       ({| batcher := fst out;
           scheduled := [];
           issued := issued a ++ [scheduled a ++ items] |},
        snd (snd out)).
Proof.
  intros a items Hne a1 out. subst a1 out.
  rewrite fold_Schedule. simpl.
  split; [reflexivity |]. split; [reflexivity |].
  unfold Flush, issueBatchLocked. simpl.
  destruct (scheduled a ++ items) as [| x l]; [congruence |].
  destruct (Batch (batcher a) (x :: l)) as [b result]. reflexivity.
Qed.

End BatchAggregatorFacts.

(** ** [New]: what it returns *)

(** X6.  [New] returns a struct or an error, never both and never neither; it
    returns a struct exactly when no step fails, and then it has called no
    [Close] and left the world as it was. *)
Theorem New_returns_struct_or_error :
  forall (World : Type)
         (subsystem_Close : Field -> World -> World * option error)
         (i : Inputs) (w : World),
    let r := New World subsystem_Close i w in
    (new_peer r <> None <-> new_err r = None)
    /\ (new_err r = None <-> failing_step i = None)
    /\ (new_err r = None -> new_world r = w /\ new_closed r = None).
Proof.
  intros World subsystem_Close i w r. subst r.
  destruct (failing_step i) as [e |] eqn:Hstep.
  - rewrite (New_failing World subsystem_Close i w e Hstep).
    unfold fail. cbn [new_peer new_err new_world new_closed].
    pose proof (Combine_step_error e
      (close_err (Close World subsystem_Close
         (new_built (New World subsystem_Close i w)) w))) as Hne.
    split; [split; intros H0; congruence |].
    split; [split; intros H0; congruence |].
    intros H0. contradiction.
  - destruct (New_succeeding World subsystem_Close i w Hstep)
      as (Hp & He & Hc & Hw).
    rewrite Hp, He, Hc, Hw.
    split; [split; intros H0; congruence |].
    split; [split; reflexivity |].
    intros _. split; reflexivity.
Qed.

(** X7.  When the TLS options or the version proto are rejected, no subsystem
    that [Close] handles exists yet: [New] calls no subsystem, leaves the
    world as it was, and returns the error of the step itself, not a
    combined error. *)
Theorem New_early_failure_is_bare :
  forall (World : Type)
         (subsystem_Close : Field -> World -> World * option error)
         (i : Inputs) (w : World) (e : error),
    tlsopts_NewOptions i = Some e
    \/ (tlsopts_NewOptions i = None /\ Proto (versionInfo i) = Some e) ->
    let r := New World subsystem_Close i w in
    new_peer r = None
    /\ new_err r = Some e
    /\ new_world r = w
    /\ option_map (@close_calls World) (new_closed r) = Some [].
Proof.
  intros World subsystem_Close i w e H r. subst r. unfold New.
  destruct H as [H | [H1 H2]].
  - rewrite H. repeat split.
  - rewrite H1, H2. repeat split.
Qed.

(** X8.  A zero [versionInfo] only silences the version line of the log: the
    struct is built the same, field by field, and the version service is
    built and started by [Run] all the same. *)
Theorem New_zero_version_only_affects_log :
  forall (World : Type)
         (subsystem_Close : Field -> World -> World * option error)
         (i : Inputs) (w : World),
    failing_step i = None ->
    let r := New World subsystem_Close i w in
    (In binary_version_line (new_log r) <-> IsZero (versionInfo i) = false)
    /\ populated (new_built r) Version = true
    /\ In Version (Run_tasks (new_built r))
    /\ forall (b : bool) (f : Field),
         new_built (New World subsystem_Close (with_IsZero b i) w) f
         = new_built r f.
Proof.
  intros World subsystem_Close i w Hstep r. subst r.
  split; [| split; [| split]].
  - clear - Hstep. unfold New, failing_step in *.
    destruct (tlsopts_NewOptions i); [discriminate Hstep |].
    destruct (Proto (versionInfo i)); [discriminate Hstep |].
    destruct (audit_NewWorker i); [| discriminate Hstep].
    cbn [new_log]. unfold binary_version_line, setup_graceful_exit.
    destruct (IsZero (versionInfo i));
      destruct (GracefulExit_Enabled (config i)); cbn [snd app In];
      split; intros H; try discriminate H; try reflexivity;
      try (left; reflexivity);
      repeat (destruct H as [H | H]; try discriminate H); contradiction.
  - unfold populated.
    rewrite (New_built_canonical World subsystem_Close i w Version Hstep).
    canonical_cases (config i); reflexivity.
  - unfold Run_tasks, Run_group.
    destruct (populated _ GracefulExit_Chore), (populated _ Payments_Chore);
      simpl; tauto.
  - intros b f.
    rewrite (New_built_canonical World subsystem_Close i w f Hstep).
    apply (New_built_canonical World subsystem_Close (with_IsZero b i) w f).
    exact Hstep.
Qed.

(** ** [Core.Run]: more on results and cancellation *)

Lemma first_failure_In (schedule : list Event) (e : error) :
  first_failure schedule = Some e ->
  IsCanceled e = false
  /\ exists f, In (Returns f (Some e)) schedule.
Proof.
  induction schedule as [| ev rest IH]; simpl; [discriminate |].
  destruct ev as [f result |].
  - destruct result as [e' |]; simpl.
    + destruct (IsCanceled e') eqn:C.
      * intros H. destruct (IH H) as [Hc [g Hg]]. eauto.
      * intros H. inversion H; subst e'. split; [exact C |].
        exists f. left. reflexivity.
    + intros H. destruct (IH H) as [Hc [g Hg]]. eauto.
  - intros H. destruct (IH H) as [Hc [g Hg]]. eauto.
Qed.

Lemma Returns_In_returned (schedule : list Event) (f : Field)
  (r : option error) :
  In (Returns f r) schedule -> In f (returned schedule).
Proof.
  induction schedule as [| ev rest IH]; simpl; [tauto |].
  intros [H | H].
  - subst ev. left. reflexivity.
  - destruct ev; [right |]; apply IH, H.
Qed.

(** X9.  An error returned by [Run] is the error some started task returned
    from its own [Run], unchanged; and it is never a cancellation. *)
Theorem Run_never_returns_cancellation :
  forall (peer : Core) (schedule : list Event) (e : error),
    Run peer schedule = Some (Some e) ->
    IsCanceled e = false
    /\ exists f,
         In f (Run_tasks peer) /\ In (Returns f (Some e)) schedule.
Proof.
  intros peer schedule e H.
  assert (Hperm : Permutation (returned schedule) (Run_tasks peer)).
  { apply Wait_returns_iff. unfold Run in H. congruence. }
  apply Wait_result in H; [| apply Run_group_clean].
  symmetry in H. destruct (first_failure_In schedule e H) as [Hc [f Hf]].
  split; [exact Hc |]. exists f. split; [| exact Hf].
  apply (Permutation_in f Hperm).
  apply (Returns_In_returned schedule f (Some e) Hf).
Qed.

Lemma steps_ctx_canceled (schedule : list Event) :
  forall group group',
    steps group schedule = Some group' ->
    ctx_canceled group' =
    ctx_canceled group || parent_canceled schedule
    || match group_err group, first_failure schedule with
       | None, Some _ => true
       | _, _ => false
       end.
Proof.
  induction schedule as [| ev rest IH]; simpl; intros group group' H.
  - inversion H; subst.
    destruct (ctx_canceled group'), (group_err group'); reflexivity.
  - destruct (step group ev) as [g1 |] eqn:E; [| discriminate].
    rewrite (IH g1 group' H). clear IH H. unfold step in E.
    destruct ev as [f result |].
    + destruct (is_pending f group); [| discriminate].
      inversion E; subst g1; clear E. unfold task_returns, parent_canceled.
      simpl existsb.
      destruct (IgnoreCanceled result) as [e |],
               (group_err group) as [e0 |]; simpl;
        destruct (ctx_canceled group), (existsb _ rest),
                 (first_failure rest); reflexivity.
    + inversion E; subst g1; clear E. simpl.
      destruct (ctx_canceled group), (parent_canceled rest),
               (group_err group), (first_failure rest); reflexivity.
Qed.

(** X10.  While [Run] waits, the context shared by the tasks is canceled exactly
    when the caller's context has been canceled or some task has returned
    an error that is not a cancellation.  Tasks that return nil or a
    cancellation never cancel the others. *)
Theorem Run_context_canceled_iff :
  forall (peer : Core) (schedule : list Event) (group : errgroup),
    steps (Run_group peer) schedule = Some group ->
    ctx_canceled group =
    parent_canceled schedule
    || match first_failure schedule with Some _ => true | None => false end.
Proof.
  intros peer schedule group H.
  rewrite (steps_ctx_canceled schedule _ _ H).
  destruct (Run_group_clean peer) as [E1 E2]. rewrite E1, E2. reflexivity.
Qed.

Lemma first_failure_single (schedule : list Event) (f : Field) (e : error) :
  NoDup (returned schedule) ->
  In (Returns f (Some e)) schedule ->
  IsCanceled e = false ->
  (forall g r, In (Returns g r) schedule -> g <> f ->
               IgnoreCanceled r = None) ->
  first_failure schedule = Some e.
Proof.
  induction schedule as [| ev rest IH]; simpl; [tauto |].
  intros Hnd Hin Hc Hothers.
  destruct ev as [g r |].
  - inversion Hnd as [| x l Hnotin Hnd' Heq]; subst.
    destruct Hin as [Hin | Hin].
    + inversion Hin; subst. simpl. rewrite Hc. reflexivity.
    + assert (Hgf : g <> f).
      { intros ->. apply Hnotin.
        apply (Returns_In_returned rest f (Some e) Hin). }
      rewrite (Hothers g r (or_introl eq_refl) Hgf).
      apply IH; auto.
      intros g0 r0 H0. apply Hothers. right. exact H0.
  - destruct Hin as [Hin | Hin]; [discriminate Hin |].
    apply IH; auto.
    intros g0 r0 H0. apply Hothers. right. exact H0.
Qed.

(** X11.  If one task fails and every other started task returns nil or a
    cancellation, [Run] returns the error of that task, in whatever order
    the tasks return. *)
Theorem Run_single_failure_any_order :
  forall (peer : Core) (schedule : list Event) (f : Field) (e : error),
    Permutation (returned schedule) (Run_tasks peer) ->
    In (Returns f (Some e)) schedule ->
    IsCanceled e = false ->
    (forall g r, In (Returns g r) schedule -> g <> f ->
                 IgnoreCanceled r = None) ->
    Run peer schedule = Some (Some e).
Proof.
  intros peer schedule f e Hperm Hin Hc Hothers.
  assert (Hnd : NoDup (returned schedule)).
  { apply (Permutation_NoDup (Permutation_sym Hperm)), NoDup_Run_tasks. }
  unfold Run.
  destruct (Wait (Run_group peer) schedule) as [res |] eqn:E.
  - apply Wait_result in E; [| apply Run_group_clean].
    rewrite E, (first_failure_single schedule f e Hnd Hin Hc Hothers).
    reflexivity.
  - exfalso. revert E. apply Wait_returns_iff. exact Hperm.
Qed.

(** X12.  [Run] looks at the struct for the graceful-exit and the payments
    chore only: the other twelve tasks are started whatever the struct
    holds, a nil slot included, where [Close] calls [Close()] on the
    populated slots among its thirteen and on no other. *)
Theorem Run_guards_only_two :
  forall (World : Type)
         (subsystem_Close : Field -> World -> World * option error)
         (peer : Core) (w : World),
    filter (fun f => negb (Field_beq f GracefulExit_Chore
                           || Field_beq f Payments_Chore))
      (Run_tasks peer) = Run_unguarded
    /\ (In GracefulExit_Chore (Run_tasks peer)
        <-> peer GracefulExit_Chore <> None)
    /\ (In Payments_Chore (Run_tasks peer)
        <-> peer Payments_Chore <> None)
    /\ Forall (fun f => peer f <> None)
         (closed_fields (Close World subsystem_Close peer w))
    /\ Close World subsystem_Close peer w
       = closing subsystem_Close (filter (populated peer) Close_order) w
    /\ Forall (fun f => peer f <> None) (filter (populated peer) Close_order).
Proof.
  intros World subsystem_Close peer w.
  split; [| split; [| split; [| split; [| split]]]].
  - unfold Run_tasks, Run_group.
    destruct (populated peer GracefulExit_Chore),
             (populated peer Payments_Chore); reflexivity.
  - unfold Run_tasks, Run_group, populated.
    destruct (peer GracefulExit_Chore), (peer Payments_Chore); simpl;
      intuition congruence.
  - unfold Run_tasks, Run_group, populated.
    destruct (peer GracefulExit_Chore), (peer Payments_Chore); simpl;
      intuition congruence.
  - rewrite Close_closed_fields. apply filter_populated_Forall.
  - apply Close_closing.
  - apply filter_populated_Forall.
Qed.

(** ** How [New], [Run] and [Close] fit together *)

(** X13.  On every struct [New] returns, [Close] and [Run] do not cover the same
    fields.  [Close] calls [Close()] on the fields [closed] and no other;
    the overlay and contact services are among them but never run; the
    version service and the garbage collection, and the payments chore
    when there is one, are run but not among them. *)
Theorem Run_and_Close_cover_different_fields :
  forall (World : Type)
         (subsystem_Close : Field -> World -> World * option error)
         (i : Inputs) (w w' : World) (peer : Core),
    new_peer (New World subsystem_Close i w) = Some peer ->
    let closed := filter (populated peer) Close_order in
    let tasks := Run_tasks peer in
    Close World subsystem_Close peer w' = closing subsystem_Close closed w'
    /\ closed_fields (Close World subsystem_Close peer w') = closed
    /\ filter (fun f => negb (existsb (Field_beq f) tasks)) closed
       = [Overlay_Service; Contact_Service]
    /\ filter (fun f => negb (existsb (Field_beq f) closed)) tasks
       = [Version; GarbageCollection_Service]
         ++ (if populated peer Payments_Chore then [Payments_Chore] else [])
    /\ (forall (counts : Counting) (f : Field),
          In f [Version; GarbageCollection_Service; Payments_Chore] ->
          close_world (Close Counting counting_Close peer counts) f
          = counts f)
    /\ (forall counts : Counting,
          map (close_world (Close Counting counting_Close peer counts))
            [Overlay_Service; Contact_Service]
          = [S (counts Overlay_Service); S (counts Contact_Service)]).
Proof.
  intros World subsystem_Close i w w' peer H closed tasks.
  subst closed tasks.
  pose proof (populated_canonical World subsystem_Close i w peer H) as Hpop.
  split; [apply Close_closing |].
  split; [apply Close_closed_fields |].
  split; [| split; [| split]].
  - rewrite (filter_ext _ _ Hpop), (Run_tasks_ext peer _ Hpop).
    clear. canonical_cases (config i); vm_compute; reflexivity.
  - rewrite (filter_ext _ _ Hpop), (Run_tasks_ext peer _ Hpop),
      (Hpop Payments_Chore).
    clear. canonical_cases (config i); vm_compute; reflexivity.
  - intros counts f Hf. rewrite Close_closing. unfold closing.
    cbn [close_world]. apply invoke_counting_untouched.
    apply never_closed_not_in_Close_order. unfold never_closed.
    simpl in Hf |- *. intuition.
  - intros counts. rewrite Close_closing, (filter_ext _ _ Hpop).
    clear. canonical_cases (config i); reflexivity.
Qed.

(** X14.  On every struct [New] returns, the subsystems built from the metainfo
    loop are the repair checker, the audit chore, the garbage collection,
    the tally, the graceful-exit chore and the metrics chore, and each of
    them was handed the very loop the struct holds. *)
Theorem metainfo_loop_is_shared :
  forall (World : Type)
         (subsystem_Close : Field -> World -> World * option error)
         (i : Inputs) (w : World) (peer : Core),
    new_peer (New World subsystem_Close i w) = Some peer ->
    peer Metainfo_Loop <> None
    /\ forall (f : Field) (h : Handle),
         peer f = Some h ->
         (In Metainfo_Loop (built_from h) <->
          In f [Repair_Checker; Audit_Chore; GarbageCollection_Service;
                Accounting_Tally; GracefulExit_Chore; Metrics_Chore])
         /\ (In Metainfo_Loop (built_from h) ->
             match h with
             | Built _ inputs =>
                 In (PeerField Metainfo_Loop, peer Metainfo_Loop) inputs
             | Given _ => False
             end).
Proof.
  intros World subsystem_Close i w peer H.
  pose proof (New_peer_canonical World subsystem_Close i w peer H) as Hcan.
  rewrite (Hcan Metainfo_Loop).
  split.
  - clear. canonical_cases (config i); vm_compute; discriminate.
  - intros f h Hf. rewrite Hcan in Hf. clear Hcan H.
    canonical_cases (config i); destruct f; vm_compute in Hf;
      try discriminate Hf; inversion Hf; subst h; clear Hf;
      vm_compute; intuition (try discriminate; try reflexivity).
Qed.

(** X15.  On every struct [New] returns, [Close] calls [Close()] on the
    metainfo loop last, after the [Close()] of every other subsystem it
    closes; every subsystem built from the loop, the garbage collection
    apart (which [Close] never closes), is closed before the loop is. *)
Theorem Close_closes_metainfo_loop_last :
  forall (World : Type)
         (subsystem_Close : Field -> World -> World * option error)
         (i : Inputs) (w w' : World) (peer : Core),
    new_peer (New World subsystem_Close i w) = Some peer ->
    let before :=
      filter (populated peer)
        [DowntimeTracking_DetectionChore; Metrics_Chore; GracefulExit_Chore;
         Audit_Chore; Audit_Worker; Accounting_Rollup; Accounting_Tally;
         DBCleanup_Chore; Repair_Repairer; Repair_Checker;
         Overlay_Service; Contact_Service] in
    Close World subsystem_Close peer w'
    = closing subsystem_Close (before ++ [Metainfo_Loop]) w'
    /\ ~ In Metainfo_Loop before
    /\ (forall received : list Field,
          close_world (Close (list Field) recording_Close peer received)
          = (received ++ before) ++ [Metainfo_Loop])
    /\ (forall (f : Field) (h : Handle),
          peer f = Some h ->
          In Metainfo_Loop (built_from h) ->
          f <> GarbageCollection_Service ->
          In f before).
Proof.
  intros World subsystem_Close i w w' peer H before.
  pose proof (populated_canonical World subsystem_Close i w peer H) as Hpop.
  pose proof (New_peer_canonical World subsystem_Close i w peer H) as Hcan.
  assert (Hlist : filter (populated peer) Close_order
                  = before ++ [Metainfo_Loop]).
  { subst before. rewrite !(filter_ext _ _ Hpop). clear.
    canonical_cases (config i); reflexivity. }
  split; [rewrite Close_closing, Hlist; reflexivity |].
  split.
  { subst before. intros Hin. apply filter_In in Hin.
    destruct Hin as [Hin _]. simpl in Hin. intuition discriminate. }
  split.
  { intros received. rewrite Close_closing, Hlist. unfold closing.
    cbn [close_world]. rewrite invoke_recording, app_assoc. reflexivity. }
  intros f h Hf Hloop Hgc. subst before.
  rewrite (filter_ext _ _ Hpop). rewrite Hcan in Hf. clear - Hf Hloop Hgc.
  canonical_cases (config i); destruct f; vm_compute in Hf;
    try discriminate Hf; inversion Hf; subst h; clear Hf;
    vm_compute in Hloop; vm_compute;
    try (exfalso; apply Hgc; reflexivity);
    intuition discriminate.
Qed.

(** ** The further properties on concrete inputs *)

Example ScheduleAndFlush_echo :
  BatchAggregator.ScheduleAndFlush BatchAggregator.echo_Batch
    two_scheduled 30
  = ({| BatchAggregator.batcher := 1;
        BatchAggregator.scheduled := [];
        BatchAggregator.issued := [[10; 20; 30]] |},
     (Some 31, None)).
Proof. reflexivity. Qed.

Example ScheduleAndFlush_short_answer :
  snd (BatchAggregator.ScheduleAndFlush BatchAggregator.short_Batch
         two_scheduled 30)
  = (Some 11, None).
Proof. reflexivity. Qed.

Example ScheduleAndFlush_failing :
  BatchAggregator.ScheduleAndFlush BatchAggregator.failing_Batch
    two_scheduled 30
  = ({| BatchAggregator.batcher := 1;
        BatchAggregator.scheduled := [];
        BatchAggregator.issued := [[10; 20; 30]] |},
     (None, Some (Failure "batch failed"))).
Proof. reflexivity. Qed.

Example Flush_new_aggregator :
  BatchAggregator.Flush BatchAggregator.echo_Batch (BatchAggregator.New 0)
  = (BatchAggregator.New 0, None).
Proof. reflexivity. Qed.

Lemma Schedule_then_Flush_one_batch_witness :
  BatchAggregator.scheduled (BatchAggregator.New (BatchItem := nat) 0)
  ++ [10; 20] <> []
  /\ BatchAggregator.Flush BatchAggregator.echo_Batch
       (fold_left BatchAggregator.Schedule [10; 20] (BatchAggregator.New 0))
     = ({| BatchAggregator.batcher := 1;
           BatchAggregator.scheduled := [];
           BatchAggregator.issued := [[10; 20]] |},
        None).
Proof.
  assert (H : BatchAggregator.scheduled (BatchAggregator.New (BatchItem := nat) 0)
              ++ [10; 20] <> []) by (simpl; discriminate).
  split; [exact H |].
  destruct (Schedule_then_Flush_one_batch nat nat nat
              BatchAggregator.echo_Batch (BatchAggregator.New 0) [10; 20] H)
    as (_ & _ & H3).
  exact H3.
Defined.

Lemma New_returns_struct_or_error_witness :
  new_err (New Counting counting_Close bad_proto_Inputs no_calls) <> None
  /\ new_peer (New Counting counting_Close bad_proto_Inputs no_calls) = None.
Proof.
  destruct (New_returns_struct_or_error Counting counting_Close
              bad_proto_Inputs no_calls) as ([H1 H2] & [H3 H4] & _).
  assert (He : new_err (New Counting counting_Close bad_proto_Inputs no_calls)
               <> None).
  { intros E. apply H3 in E. vm_compute in E. discriminate E. }
  split; [exact He |].
  destruct (new_peer (New Counting counting_Close bad_proto_Inputs no_calls))
    as [p |] eqn:E; [| reflexivity].
  exfalso. apply He, H1. discriminate.
Defined.

Lemma New_early_failure_is_bare_witness :
  tlsopts_NewOptions bad_proto_Inputs = None
  /\ Proto (versionInfo bad_proto_Inputs) = Some (Failure "version: invalid")
  /\ new_err (New Counting failing_Close bad_proto_Inputs no_calls)
     = Some (Failure "version: invalid").
Proof.
  split; [reflexivity |]. split; [reflexivity |].
  destruct (New_early_failure_is_bare Counting failing_Close
              bad_proto_Inputs no_calls (Failure "version: invalid")
              (or_intror (conj eq_refl eq_refl)))
    as (_ & H2 & _).
  exact H2.
Defined.

Lemma New_zero_version_only_affects_log_witness :
  failing_step (good_Inputs default_Config) = None
  /\ In binary_version_line
       (new_log (New Counting counting_Close (good_Inputs default_Config)
                   no_calls)).
Proof.
  split; [reflexivity |].
  destruct (New_zero_version_only_affects_log Counting counting_Close
              (good_Inputs default_Config) no_calls eq_refl)
    as ([_ H] & _).
  apply H. reflexivity.
Defined.

Lemma Run_never_returns_cancellation_witness :
  Run (built_peer stripe_Config) (failing_schedule (built_peer stripe_Config))
  = Some (Some (Failure "checker: queue unavailable"))
  /\ IsCanceled (Failure "checker: queue unavailable") = false.
Proof.
  assert (H : Run (built_peer stripe_Config)
                (failing_schedule (built_peer stripe_Config))
              = Some (Some (Failure "checker: queue unavailable")))
    by (vm_compute; reflexivity).
  split; [exact H |].
  destruct (Run_never_returns_cancellation _ _ _ H) as [Hc _].
  exact Hc.
Defined.

Lemma Run_context_canceled_iff_witness :
  steps (Run_group (built_peer default_Config))
    [Returns Version None; Returns Metrics_Chore (Some ContextCanceled)]
  <> None
  /\ forall group,
       steps (Run_group (built_peer default_Config))
         [Returns Version None; Returns Metrics_Chore (Some ContextCanceled)]
       = Some group ->
       ctx_canceled group = false.
Proof.
  split; [vm_compute; discriminate |].
  intros group H.
  rewrite (Run_context_canceled_iff _ _ _ H). reflexivity.
Defined.

Lemma Run_single_failure_any_order_witness :
  Run (built_peer default_Config)
      (one_failure_schedule (built_peer default_Config))
  = Some (Some (Failure "checker: queue unavailable")).
Proof.
  apply (Run_single_failure_any_order (built_peer default_Config)
           (one_failure_schedule (built_peer default_Config))
           Repair_Checker).
  - exact (Permutation_sym
             (Permutation_rev (Run_tasks (built_peer default_Config)))).
  - vm_compute. tauto.
  - reflexivity.
  - intros g r H Hne. vm_compute in H.
    repeat (destruct H as [H | H];
            [inversion H; subst; try reflexivity; congruence |]).
    contradiction.
Defined.

Lemma Run_guards_only_two_witness :
  Run_tasks zero_Core = Run_unguarded
  /\ close_calls (Close Counting failing_Close zero_Core no_calls) = []
  /\ close_err (Close Counting failing_Close zero_Core no_calls) = None.
Proof.
  destruct (Run_guards_only_two Counting failing_Close zero_Core no_calls)
    as (H1 & _ & _ & _ & H5 & _).
  split; [rewrite <- H1; reflexivity |].
  rewrite H5. split; reflexivity.
Defined.

Lemma Run_and_Close_cover_different_fields_witness :
  new_peer (New Counting counting_Close (good_Inputs stripe_Config) no_calls)
  = Some (built_peer stripe_Config)
  /\ filter
       (fun f =>
          negb (existsb (Field_beq f) (Run_tasks (built_peer stripe_Config))))
       (filter (populated (built_peer stripe_Config)) Close_order)
     = [Overlay_Service; Contact_Service]
  /\ map (close_world
            (Close Counting counting_Close (built_peer stripe_Config)
               no_calls))
       [Overlay_Service; Contact_Service] = [1; 1].
Proof.
  split; [reflexivity |].
  destruct (Run_and_Close_cover_different_fields Counting counting_Close
              (good_Inputs stripe_Config) no_calls no_calls
              (built_peer stripe_Config) eq_refl)
    as (_ & _ & H3 & _ & _ & H6).
  split; [exact H3 | apply (H6 no_calls)].
Defined.

Lemma metainfo_loop_is_shared_witness :
  new_peer (New Counting counting_Close (good_Inputs stripe_Config) no_calls)
  = Some (built_peer stripe_Config)
  /\ built_peer stripe_Config Metainfo_Loop <> None.
Proof.
  split; [reflexivity |].
  destruct (metainfo_loop_is_shared Counting counting_Close
              (good_Inputs stripe_Config) no_calls
              (built_peer stripe_Config) eq_refl) as [H1 _].
  exact H1.
Defined.

Lemma Close_closes_metainfo_loop_last_witness :
  new_peer (New Counting counting_Close (good_Inputs stripe_Config) no_calls)
  = Some (built_peer stripe_Config)
  /\ close_world
       (Close (list Field) recording_Close (built_peer stripe_Config) [])
     = [DowntimeTracking_DetectionChore; Metrics_Chore; GracefulExit_Chore;
        Audit_Chore; Audit_Worker; Accounting_Rollup; Accounting_Tally;
        DBCleanup_Chore; Repair_Repairer; Repair_Checker;
        Overlay_Service; Contact_Service; Metainfo_Loop].
Proof.
  split; [reflexivity |].
  destruct (Close_closes_metainfo_loop_last Counting counting_Close
              (good_Inputs stripe_Config) no_calls no_calls
              (built_peer stripe_Config) eq_refl)
    as (_ & _ & H3 & _).
  rewrite (H3 []). reflexivity.
Defined.
